(** * DocLens ingestion core: chunker, extraction parsing and ingest pipeline

    A shallow embedding of [src/ingest/chunker.py], [src/ingest/extract_graph.py],
    [src/ingest/create_graph.py], [src/ingest/create_index.py] and the graph-mode
    part of [src/ingest/ingest_pipeline.py], followed by the properties
    proved about them.

    Conventions.
    - A Python [str] is a [string]; its characters are the code points
      0..255 (the Latin-1 range), so every string of this development is a
      well-formed Python string whose UTF-8 encoding never fails.
    - Python integers are [Z]; counters that only count up from zero are [nat].
    - A Python call that may raise returns a [res]: [Ok v] or [Raise e]. *)

From Stdlib Require Import ZArith NArith Lia Ascii String.
From stdpp Require Import base list strings pretty.
From Equations Require Import Equations.

Open Scope Z_scope.

(** ** Exceptions and the result monad *)

(** The exceptions of this code base; all of them derive from Python's
    [Exception]. [StoreError] stands for whatever the graph-store driver or
    the HTTP client of the vector index raises, [ExtractorError] for whatever
    the chat-completion client raises. *)
Inductive exn : Type :=
| AssertionError
| AttributeError
| JSONDecodeError
| ExtractorError
| StoreError.

Inductive res (A : Type) : Type :=
| Ok (a : A)
| Raise (e : exn).
Arguments Ok {A} a.
Arguments Raise {A} e.

#[global] Instance res_ret : MRet res := fun _ a => Ok a.
#[global] Instance res_bind : MBind res := fun _ _ f m =>
  match m with
  | Ok a => f a
  | Raise e => Raise e
  end.

(** A [for] loop whose body may raise: the first exception ends the loop. *)
Fixpoint for_each {S A : Type} (body : S → A → res S) (xs : list A) (s : S) : res S :=
  match xs with
  | [] => Ok s
  | x :: rest => s' ← body s x; for_each body rest s'
  end.

(** ** Python string primitives *)
Module PyStr.

Definition code (c : ascii) : N := N_of_ascii c.

Definition between (lo hi n : N) : bool := ((lo <=? n) && (n <=? hi))%N.

(** [str.isspace] on one character, which is also the class [\s] of [re]
    and the set that [str.strip] removes: TAB..CR, FS..US, SPACE, NEL, NBSP. *)
Definition isspace (c : ascii) : bool :=
  let n := code c in
  between 9 13 n || between 28 31 n || (n =? 32)%N || (n =? 133)%N || (n =? 160)%N.

(** The line boundaries of [str.splitlines]: LF, VT, FF, CR, FS, GS, RS, NEL
    (a CR followed by LF counts once). *)
Definition islinebreak (c : ascii) : bool :=
  let n := code c in
  between 10 13 n || between 28 30 n || (n =? 133)%N.

Definition LF : ascii := "010"%char.
Definition CR : ascii := "013"%char.

(** The one-character string "\n". *)
Definition NL : string := String LF EmptyString.

Definition len (s : string) : Z := Z.of_nat (String.length s).

Definition is_empty (s : string) : bool :=
  match s with
  | EmptyString => true
  | String _ _ => false
  end.

Fixpoint lstrip (s : string) : string :=
  match s with
  | EmptyString => EmptyString
  | String c r => if isspace c then lstrip r else s
  end.

Fixpoint rstrip (s : string) : string :=
  match s with
  | EmptyString => EmptyString
  | String c r =>
      match rstrip r with
      | EmptyString => if isspace c then EmptyString else String c EmptyString
      | r' => String c r'
      end
  end.

Definition strip (s : string) : string := rstrip (lstrip s).

(** Slice bounds as Python normalises them: a negative index counts from
    the end, and both ends are clamped to [0, n]. *)
Definition clamp (n i : Z) : Z :=
  if i <? 0 then Z.max 0 (i + n) else Z.min i n.

(** [s[lo:hi]] *)
Definition slice (s : string) (lo hi : Z) : string :=
  let a := clamp (len s) lo in
  let b := clamp (len s) hi in
  String.substring (Z.to_nat a) (Z.to_nat (b - a)) s.

(** [sep.join(parts)] *)
Definition join (sep : string) (parts : list string) : string :=
  String.concat sep parts.

(** [s.splitlines()]; [cur] is the line being read, in reverse. *)
Fixpoint splitlines_aux (cur : list ascii) (s : string) : list string :=
  match s with
  | EmptyString =>
      match cur with
      | [] => []
      | _ => [string_of_list_ascii (rev cur)]
      end
  | String c r =>
      if Ascii.eqb c CR then
        match r with
        | String d r' =>
            if Ascii.eqb d LF
            then string_of_list_ascii (rev cur) :: splitlines_aux [] r'
            else string_of_list_ascii (rev cur) :: splitlines_aux [] r
        | EmptyString => string_of_list_ascii (rev cur) :: splitlines_aux [] r
        end
      else if islinebreak c then
        string_of_list_ascii (rev cur) :: splitlines_aux [] r
      else splitlines_aux (c :: cur) r
  end.

Definition splitlines (s : string) : list string := splitlines_aux [] s.

(** [s.find(c)] and [s.rfind(c)] for a one-character needle; -1 when absent. *)
Fixpoint find_from (c : ascii) (s : string) (i : Z) : Z :=
  match s with
  | EmptyString => -1
  | String d r => if Ascii.eqb c d then i else find_from c r (i + 1)
  end.

Definition find (c : ascii) (s : string) : Z := find_from c s 0.

Fixpoint rfind_from (c : ascii) (s : string) (i last : Z) : Z :=
  match s with
  | EmptyString => last
  | String d r => rfind_from c r (i + 1) (if Ascii.eqb c d then i else last)
  end.

Definition rfind (c : ascii) (s : string) : Z := rfind_from c s 0 (-1).

(** [str(i)] for an integer. *)
Definition str_of_int (i : Z) : string := pretty i.

(** [s.encode("utf-8")] for code points below 256. *)
Definition utf8_char (c : ascii) : list N :=
  let n := code c in
  if (n <? 128)%N then [n]
  else [N.lor 192 (N.shiftr n 6); N.lor 128 (N.land n 63)].

Fixpoint encode_utf8 (s : string) : list N :=
  match s with
  | EmptyString => []
  | String c r => utf8_char c ++ encode_utf8 r
  end.

(** Longest prefix without a line feed (what a greedy "any character" run
    matches), longest prefix of non-space characters. *)
Fixpoint until_newline (s : string) : string :=
  match s with
  | EmptyString => EmptyString
  | String c r => if Ascii.eqb c LF then EmptyString else String c (until_newline r)
  end.

Fixpoint nonspace_run (s : string) : string :=
  match s with
  | EmptyString => EmptyString
  | String c r => if isspace c then EmptyString else String c (nonspace_run r)
  end.

(** ASCII lower-casing of one character, for case-insensitive literals. *)
Definition lower (c : ascii) : ascii :=
  let n := code c in
  if between 65 90 n then ascii_of_N (n + 32) else c.

(** Drops the literal [lit] (given in lower case) from the front of [s],
    ignoring case. *)
Fixpoint drop_literal_ci (lit s : string) : option string :=
  match lit with
  | EmptyString => Some s
  | String l lit' =>
      match s with
      | String c r => if Ascii.eqb (lower c) l then drop_literal_ci lit' r else None
      | EmptyString => None
      end
  end.

(** [pattern.search(s)] for a pattern that starts with [^] under
    [re.MULTILINE]: the pattern is tried at offset 0 and after every line
    feed, leftmost first. [bol] tells whether [s] starts a line. *)
Fixpoint search_bol {A : Type} (m : string → option A) (bol : bool) (s : string)
  : option A :=
  match (if bol then m s else None) with
  | Some r => Some r
  | None =>
      match s with
      | EmptyString => None
      | String c r => search_bol m (Ascii.eqb c LF) r
      end
  end.

End PyStr.

(** ** SHA-1 ([hashlib.sha1]), on lists of bytes *)
Module Sha1.

Definition w32 (x : N) : N := N.land x 0xFFFFFFFF.
Definition add32 (x y : N) : N := w32 (x + y).
Definition not32 (x : N) : N := N.lxor x 0xFFFFFFFF.
Definition rotl (k x : N) : N :=
  w32 (N.lor (N.shiftl x k) (N.shiftr x (32 - k))).

Definition be_bytes (width : nat) (x : N) : list N :=
  map (fun i => N.land (N.shiftr x (8 * N.of_nat i)) 255) (rev (seq 0 width)).

Definition be_word (bs : list N) : N :=
  fold_left (fun acc b => N.lor (N.shiftl acc 8) b) bs 0%N.

Definition pad (msg : list N) : list N :=
  let l := length msg in
  let zeros := ((64 - (l + 9) mod 64) mod 64)%nat in
  msg ++ [128%N] ++ repeat 0%N zeros ++ be_bytes 8 (8 * N.of_nat l).

Fixpoint group (fuel k : nat) (bs : list N) : list (list N) :=
  match fuel with
  | O => []
  | S fuel' =>
      match bs with
      | [] => []
      | _ => take k bs :: group fuel' k (drop k bs)
      end
  end.

Definition blocks (bs : list N) : list (list N) := group (length bs) 64 bs.

Definition block_words (block : list N) : list N :=
  map be_word (group 16 4 block).

Fixpoint expand (n : nat) (w : list N) : list N :=
  match n with
  | O => w
  | S n' =>
      let t := length w in
      let x := N.lxor (N.lxor (nth (t - 3) w 0%N) (nth (t - 8) w 0%N))
                      (N.lxor (nth (t - 14) w 0%N) (nth (t - 16) w 0%N)) in
      expand n' (w ++ [rotl 1 x])
  end.

Definition state : Type := N * N * N * N * N.

Definition f_k (t : nat) (b c d : N) : N * N :=
  if (t <? 20)%nat then (N.lor (N.land b c) (N.land (not32 b) d), 0x5A827999%N)
  else if (t <? 40)%nat then (N.lxor (N.lxor b c) d, 0x6ED9EBA1%N)
  else if (t <? 60)%nat then
    (N.lor (N.lor (N.land b c) (N.land b d)) (N.land c d), 0x8F1BBCDC%N)
  else (N.lxor (N.lxor b c) d, 0xCA62C1D6%N).

Definition round (s : state) (tw : nat * N) : state :=
  let '(a, b, c, d, e) := s in
  let '(t, w) := tw in
  let '(f, k) := f_k t b c d in
  let temp := add32 (add32 (add32 (add32 (rotl 5 a) f) e) k) w in
  (temp, a, rotl 30 b, c, d).

Definition compress (h : state) (block : list N) : state :=
  let w := expand 64 (block_words block) in
  let '(a, b, c, d, e) := fold_left round (combine (seq 0 80) w) h in
  let '(h0, h1, h2, h3, h4) := h in
  (add32 h0 a, add32 h1 b, add32 h2 c, add32 h3 d, add32 h4 e).

Definition init : state :=
  (0x67452301, 0xEFCDAB89, 0x98BADCFE, 0x10325476, 0xC3D2E1F0)%N.

Definition digest (msg : list N) : list N :=
  let '(h0, h1, h2, h3, h4) := fold_left compress (blocks (pad msg)) init in
  be_bytes 4 h0 ++ be_bytes 4 h1 ++ be_bytes 4 h2 ++ be_bytes 4 h3 ++ be_bytes 4 h4.

Definition hex_digit (n : N) : ascii :=
  if (n <? 10)%N then ascii_of_N (48 + n) else ascii_of_N (87 + n).

Fixpoint hex (bs : list N) : string :=
  match bs with
  | [] => EmptyString
  | b :: r => String (hex_digit (N.shiftr b 4)) (String (hex_digit (N.land b 15)) (hex r))
  end.

Definition hexdigest (msg : list N) : string := hex (digest msg).

End Sha1.

(** ** src/ingest/chunker.py *)
Module Chunker.
Import PyStr.

(** [_hash_id] with its keyword argument [n]: the first [n] hexadecimal
    digits of the SHA-1 of the UTF-8 bytes of the parts joined by "::". *)
Definition _hash_id_n (parts : list string) (n : Z) : string :=
  slice (Sha1.hexdigest (encode_utf8 (join "::" parts))) 0 n.

Definition _hash_id (parts : list string) : string := _hash_id_n parts 16.

(** Leading run of '#' and what follows it. *)
Fixpoint hashes (s : string) : nat * string :=
  match s with
  | String "#" r => let '(k, rest) := hashes r in (S k, rest)
  | _ => (O, s)
  end.

(** [H_RE.match(ln)]: the length of group 1 and group 2. The pattern is
    one to six '#' (group 1), then one or more space characters, then the
    rest of the line (group 2); the greedy run of spaces takes every space
    that follows the '#'s. *)
Definition H_RE_match (ln : string) : option (nat * string) :=
  let '(k, rest) := hashes ln in
  if ((1 <=? k) && (k <=? 6))%nat then
    match rest with
    | String c _ => if isspace c then Some (k, until_newline (lstrip rest)) else None
    | EmptyString => None
    end
  else None.

(** [TITLE_RE], tried at the start of a line: group 1. The pattern is one
    '#', one or more space characters, then the rest of the line (group 1). *)
Definition TITLE_RE_at (s : string) : option string :=
  match s with
  | String "#" (String c _ as rest) =>
      if isspace c then Some (until_newline (lstrip rest)) else None
  | _ => None
  end.

(** [SOURCE_RE], tried at the start of a line: group 1. The pattern is
    '>', any spaces, the literal "Source:" in any letter case, any spaces,
    then one or more non-space characters (group 1). *)
Definition SOURCE_RE_at (s : string) : option string :=
  match s with
  | String ">" rest =>
      match drop_literal_ci "source:" (lstrip rest) with
      | Some r =>
          let g := nonspace_run (lstrip r) in
          if is_empty g then None else Some g
      | None => None
      end
  | _ => None
  end.

Definition _title_url (md : string) : option string * option string :=
  (strip <$> search_bol TITLE_RE_at true md,
   strip <$> search_bol SOURCE_RE_at true md).

(** [" > ".join([p for p in path if p]) or "(root)"] *)
Definition path_label (path : list string) : string :=
  let joined := join " > " (filter (fun p => is_empty p = false) path) in
  if is_empty joined then "(root)" else joined.

(** The variables of [_split_sections] that its loop updates. *)
Record splitter : Type := {
  sections : list (string * string);
  path : list string;
  buf : list string;
}.

(** The local function [flush]: the sections after it has run. *)
Definition flush (st : splitter) : list (string * string) :=
  match buf st with
  | [] => sections st
  | _ => sections st ++ [(path_label (path st), strip (join NL (buf st)) +:+ NL)]
  end.

(** One iteration of [for ln in lines]. *)
Definition split_step (st : splitter) (ln : string) : splitter :=
  match H_RE_match ln with
  | Some (level, text) =>
      {| sections := flush st;
         path := take (level - 1) (path st) ++ [strip text];
         buf := [ln] |}
  | None =>
      {| sections := sections st; path := path st; buf := buf st ++ [ln] |}
  end.

Definition _split_sections (md : string) : list (string * string) :=
  flush (fold_left split_step (splitlines md)
                   {| sections := []; path := []; buf := [] |}).

(** The [while i < n] loop of [_char_windows]; [n - i] decreases. *)
Equations? char_windows_loop (size overlap n i : Z) (out : list (Z * Z))
  : list (Z * Z) by wf (Z.to_nat (n - i)) lt :=
  char_windows_loop size overlap n i out :=
    match decide (i < n) with
    | left _ =>
        let j := Z.min (i + size) n in
        match decide (j >= n) with
        | left _ => out ++ [(i, j)]
        | right _ =>
            char_windows_loop size overlap n (Z.max (j - overlap) (i + 1))
                              (out ++ [(i, j)])
        end
    | right _ => out
    end.
Proof. lia. Qed.

Definition _char_windows (s : string) (size overlap : Z) : res (list (Z * Z)) :=
  if (0 <? size) && (0 <=? overlap) && (overlap <? size)
  then Ok (char_windows_loop size overlap (len s) 0 [])
  else Raise AssertionError.

Record Chunk : Type := {
  chunk_id : string;
  doc_id : string;
  text : string;
  source_file : string;
  section_path : string;
}.

Record SectionChunker : Type := {
  size : Z;
  over : Z;
  max_h : Z;
}.


(** [doc_key = url or source_file] *)
Definition doc_key (md source : string) : string :=
  match (_title_url md).2 with
  | Some url => if is_empty url then source else url
  | None => source
  end.

(** Body of the inner loop of [chunk_markdown_text]: the state is the list
    [chunks] and the counter [idx]. *)
Definition emit_window (doc source sec_path sec_text : string)
    (st : list Chunk * nat) (w : Z * Z) : list Chunk * nat :=
  let piece := strip (slice sec_text w.1 w.2) in
  if is_empty piece then st
  else (st.1 ++ [{| chunk_id := _hash_id [doc; sec_path; str_of_int (Z.of_nat st.2)];
                    doc_id := doc;
                    text := piece;
                    source_file := source;
                    section_path := sec_path |}],
        S st.2).

(** Body of the outer loop. *)
Definition chunk_section (self : SectionChunker) (doc source : string)
    (st : list Chunk * nat) (sec : string * string) : res (list Chunk * nat) :=
  ws ← _char_windows sec.2 (size self) (over self);
  Ok (fold_left (emit_window doc source sec.1 sec.2) ws st).

Definition chunk_markdown_text (self : SectionChunker) (md_text source : string)
  : res (list Chunk) :=
  let doc := _hash_id [doc_key md_text source] in
  st ← for_each (chunk_section self doc source) (_split_sections md_text) ([], O);
  Ok st.1.

End Chunker.

(** ** Specification-side definitions for the chunker *)
Module ChunkerSpec.
Import PyStr Chunker.

(** The windows that the loop of [_char_windows] produces from offset [i]
    on, for a text of [n] characters. *)
Definition windows_from (sz ov n i : Z) : list (Z * Z) :=
  char_windows_loop sz ov n i [].

(** The shape of a window list over [n] characters: it starts at [i], every
    window but the last has [sz] characters and is followed by one that
    starts [ov] characters before its end, and the last one ends at [n]. *)
Fixpoint tiles (sz ov n i : Z) (ws : list (Z * Z)) : Prop :=
  match ws with
  | [] => n <= i
  | (a, b) :: rest =>
      a = i ∧ i < n ∧
      match rest with
      | [] => b = n ∧ n <= i + sz
      | _ => b = i + sz ∧ b < n ∧ tiles sz ov n (b - ov) rest
      end
  end.

(** The variables of [_split_sections] before its loop. *)
Definition split_init : splitter := {| sections := []; path := []; buf := [] |}.

(** The trimmed window slices of one section that are not empty, each with
    the path of the section, in window order. *)
Definition window_pieces (sec : string * string) (ws : list (Z * Z))
  : list (string * string) :=
  filter (fun p => is_empty p.2 = false)
         (map (fun w => (sec.1, strip (slice sec.2 w.1 w.2))) ws).

Definition section_pieces (self : SectionChunker) (sec : string * string)
  : res (list (string * string)) :=
  ws ← _char_windows sec.2 (size self) (over self);
  Ok (window_pieces sec ws).

(** The pieces of all sections of a document, in document order. *)
Definition document_pieces (self : SectionChunker) (md : string)
  : res (list (string * string)) :=
  for_each (fun acc sec => ps ← section_pieces self sec; Ok (acc ++ ps))
           (_split_sections md) [].

(** The chunk made of the piece at position [i] of a sequence. *)
Definition chunk_at (doc source : string) (i : nat) (p : string * string) : Chunk :=
  {| chunk_id := _hash_id [doc; p.1; str_of_int (Z.of_nat i)];
     doc_id := doc;
     text := p.2;
     source_file := source;
     section_path := p.1 |}.

(** Pieces numbered from [k] on. *)
Definition numbered (doc source : string) (k : nat) (ps : list (string * string))
  : list Chunk :=
  imap (fun i => chunk_at doc source (k + i)) ps.

(** The chunks of a document grouped by the section that produced them;
    [idx] is the value of the counter when the first section starts. *)
Fixpoint section_groups (self : SectionChunker) (doc source : string)
    (secs : list (string * string)) (idx : nat) : res (list (list Chunk)) :=
  match secs with
  | [] => Ok []
  | sec :: rest =>
      st ← chunk_section self doc source ([], idx) sec;
      groups ← section_groups self doc source rest st.2;
      Ok (st.1 :: groups)
  end.

Definition chunks_by_section (self : SectionChunker) (md_text source : string)
  : res (list (list Chunk)) :=
  section_groups self (_hash_id [doc_key md_text source]) source
                 (_split_sections md_text) O.

(** Sample inputs: the configuration of the specification's scenarios, a
    document with a title, a source line and two sections of the same name,
    and a document with two top-level sections of the same name. *)
Definition sample_chunker : SectionChunker := {| size := 800; over := 120; max_h := 6 |}.

Definition sample_doc : string :=
  "# Title
> Source: https://x/y
## Section
aaa
## Section
bbb".

Definition twin_sections_doc : string :=
  "# A
x
# A
y".

(** A document of two plain lines, and a blank line followed by a heading. *)
Definition two_lines_doc : string := "one" +:+ NL +:+ "two".
Definition blank_then_heading_doc : string := NL +:+ "# A".

(** A text of [n] characters. *)
Definition text_of_length (n : nat) : string :=
  string_of_list_ascii (repeat "a"%char n).

Definition sample_doc_revised : string :=
  "# Title
> Source: https://x/y
## Section
zzz".
End ChunkerSpec.

(** ** JSON values as [json.loads] builds them *)
Module Json.

(** A Python [float]: not-a-number, an infinity, or plus or minus
    [mantissa * 2 ^ exponent]. *)
Inductive pyfloat : Type :=
| FNan
| FInf (negative : bool)
| FFinite (negative : bool) (mantissa : N) (exponent : Z).

(** [JNull] is Python's [None]; a dict is the list of its items, in
    insertion order, with distinct keys. *)
#[warnings="-register-all"]
Inductive json : Type :=
| JNull
| JBool (b : bool)
| JInt (i : Z)
| JFloat (f : pyfloat)
| JStr (s : string)
| JList (items : list json)
| JDict (items : list (string * json)).

(** Python truth value: what [if v] and [v or d] test. *)
Definition truthy (v : json) : bool :=
  match v with
  | JNull => false
  | JBool b => b
  | JInt i => negb (i =? 0)
  | JFloat (FFinite _ m _) => negb (m =? 0)%N
  | JFloat _ => true
  | JStr s => negb (PyStr.is_empty s)
  | JList [] => false
  | JList _ => true
  | JDict [] => false
  | JDict _ => true
  end.

(** [v or d] *)
Definition or_else (v d : json) : json := if truthy v then v else d.

Fixpoint dict_lookup (k : string) (items : list (string * json)) : option json :=
  match items with
  | [] => None
  | (k', v) :: rest => if String.eqb k k' then Some v else dict_lookup k rest
  end.

(** [v.get(k, d)]: only a dict has the method. *)
Definition get (v : json) (k : string) (d : json) : res json :=
  match v with
  | JDict items => Ok (default d (dict_lookup k items))
  | _ => Raise AttributeError
  end.

(** [isinstance(v, list)], with the list when it holds. *)
Definition as_list (v : json) : option (list json) :=
  match v with
  | JList items => Some items
  | _ => None
  end.

End Json.

(** ** src/ingest/extract_graph.py *)
Module ExtractGraph.
Import PyStr Json.

(** The value [{"entities": entities, "relations": relations}] that
    [extract_kg_from_chunk] returns: both fields are Python lists. *)
Record KG : Type := {
  entities : list json;
  relations : list json;
}.

Definition empty_kg : KG := {| entities := []; relations := [] |}.

Definition _extract_json_block (text : string) : string :=
  let start := find "{" text in
  let end_ := rfind "}" text in
  if (start =? -1) || (end_ =? -1) || (end_ <=? start)
  then strip text
  else slice text start (end_ + 1).

Section Parsing.

(** [json.loads]: [None] when it raises [JSONDecodeError]. *)
Variable json_loads : string → option json.

(** Lines 146-153: the fields of the parsed value, coerced to lists. *)
Definition kg_of_parsed (parsed : json) : res KG :=
  ents ← get parsed "entities" (JList []);
  rels ← get parsed "relations" (JList []);
  Ok {| entities := default [] (as_list ents);
        relations := default [] (as_list rels) |}.

(** Lines 135-153, from the text of the reply on. *)
Definition parse_content (raw : string) : res KG :=
  let content := strip raw in
  match json_loads content with
  | Some parsed => kg_of_parsed parsed
  | None =>
      match json_loads (_extract_json_block content) with
      | Some parsed => kg_of_parsed parsed
      | None => Ok empty_kg
      end
  end.

(** [extract_kg_from_chunk]; [reply] is what the chat-completion request
    for the chunk produced: the text of the first choice, or the exception
    raised before any text was obtained. *)
Definition extract_kg_from_chunk (reply : res string) : res KG :=
  raw ← reply; parse_content raw.

End Parsing.
End ExtractGraph.

(** ** src/ingest/create_graph.py *)
Module CreateGraph.
Import Json.

(** The parameters of the two Cypher statements. *)
Record entity_merge : Type := {
  em_id : json;
  em_name : json;
  em_type : json;
  em_description : json;
  em_extra_json : string;
  em_source_file : string;
  em_section_path : string;
  em_doc_id : string;
}.

Record relation_merge : Type := {
  rm_subject : json;
  rm_predicate : json;
  rm_object : json;
  rm_description : json;
  rm_source_file : string;
}.

Section Upserts.

(** [json.dumps(_, ensure_ascii=False)] *)
Variable json_dumps : json → string.

(** The [tx.run] call made for one entity. *)
Definition entity_run (source_file section_path doc_id : string) (ent : json)
  : res entity_merge :=
  extra ← get ent "extra" JNull;
  let extra_json := json_dumps (or_else extra (JDict [])) in
  id ← get ent "id" JNull;
  name ← get ent "name" JNull;
  type ← get ent "type" JNull;
  description ← get ent "description" (JStr EmptyString);
  Ok {| em_id := id; em_name := name; em_type := type;
        em_description := description; em_extra_json := extra_json;
        em_source_file := source_file; em_section_path := section_path;
        em_doc_id := doc_id |}.

(** [upsert_entities]: the [tx.run] calls it makes, in order. *)
Definition upsert_entities (entities : list json)
    (source_file section_path doc_id : string) : res (list entity_merge) :=
  for_each (fun runs ent =>
              r ← entity_run source_file section_path doc_id ent; Ok (runs ++ [r]))
           entities [].

Definition relation_run (source_file : string) (rel : json) : res relation_merge :=
  subject ← get rel "subject" JNull;
  predicate ← get rel "predicate" JNull;
  object ← get rel "object" JNull;
  description ← get rel "description" (JStr EmptyString);
  Ok {| rm_subject := subject; rm_predicate := predicate; rm_object := object;
        rm_description := description; rm_source_file := source_file |}.

(** [upsert_relations] *)
Definition upsert_relations (relations : list json) (source_file : string)
  : res (list relation_merge) :=
  for_each (fun runs rel => r ← relation_run source_file rel; Ok (runs ++ [r]))
           relations [].

End Upserts.
End CreateGraph.

(** ** src/ingest/create_index.py *)
Module CreateIndex.
Import Json Chunker.

(** The JSON document that [index_chunk] posts under [.../_doc/<chunk_id>]. *)
Record index_doc (vector : Type) : Type := {
  ix_chunk_id : string;
  ix_doc_id : string;
  ix_source_file : string;
  ix_section_path : string;
  ix_text : string;
  ix_entity_ids : list json;
  ix_vector : vector;
}.
Arguments ix_chunk_id {vector} _.
Arguments ix_doc_id {vector} _.
Arguments ix_source_file {vector} _.
Arguments ix_section_path {vector} _.
Arguments ix_text {vector} _.
Arguments ix_entity_ids {vector} _.
Arguments ix_vector {vector} _.

(** The request of [index_chunk]: the key in the URL and the body. *)
Definition index_request {vector : Type} (embed : string → vector)
    (chunk : Chunk) (entity_ids : list json) : string * index_doc vector :=
  (chunk_id chunk,
   {| ix_chunk_id := chunk_id chunk;
      ix_doc_id := doc_id chunk;
      ix_source_file := source_file chunk;
      ix_section_path := section_path chunk;
      ix_text := text chunk;
      ix_entity_ids := entity_ids;
      ix_vector := embed (text chunk) |}).

End CreateIndex.

(** ** src/ingest/ingest_pipeline.py, graph mode, one batch *)
Module IngestPipeline.
Import Json Chunker ExtractGraph CreateGraph CreateIndex.

(** The calls that reach the two stores. *)
Inductive graph_call : Type :=
| CallUpsertEntities (entities : list json) (source_file section_path doc_id : string)
| CallUpsertRelations (relations : list json) (source_file : string).

Inductive store_call (vector : Type) : Type :=
| ExecuteWrite (c : graph_call)
| IndexPost (key : string) (doc : index_doc vector).
Arguments ExecuteWrite {vector} c.
Arguments IndexPost {vector} key doc.

Section Batch.

Variable vector : Type.
(** The embedder: [embedder.embed([text])[0]]. *)
Variable embed : string → vector.
Variable json_loads : string → option json.
Variable json_dumps : json → string.
(** The reply to the extraction request submitted for slot [idx] of the
    batch with the given chunk text. *)
Variable complete : nat → string → res string.
(** Whether the store rejects the call made when [k] calls were made before. *)
Variable store_fails : nat → bool.

(** *** Extraction dispatch: lines 86-98 *)

(** What [future.result()] gives for the future submitted for slot [idx]. *)
Definition future_result (idx : nat) (chunk : Chunk) : res KG :=
  extract_kg_from_chunk json_loads (complete idx (text chunk)).

(** Body of [for future in as_completed(futures)]; [idx = futures[future]].
    The index comes from [enumerate(chunk_batch)], so the assignment
    [kg_list[idx] = ...] is always in range. *)
Definition collect_one (chunk_batch : list Chunk) (kg_list : list (option KG))
    (idx : nat) : list (option KG) :=
  match chunk_batch !! idx with
  | Some chunk =>
      match future_result idx chunk with
      | Ok kg => <[idx := Some kg]> kg_list
      | Raise _ => <[idx := Some empty_kg]> kg_list
      end
  | None => kg_list
  end.

(** [completion] is the order in which [as_completed] yields the futures,
    each named by the slot it was submitted for. *)
Definition dispatch (chunk_batch : list Chunk) (completion : list nat)
  : list (option KG) :=
  fold_left (collect_one chunk_batch) completion
            (replicate (length chunk_batch) None).

(** *** Store writes: lines 100-124 *)

(** A computation that calls the stores: it extends the log of calls made
    so far and returns or raises. *)
Definition store_m (A : Type) : Type :=
  list (store_call vector) → res A * list (store_call vector).

Definition sm_ret {A : Type} (a : A) : store_m A := fun log => (Ok a, log).

Definition sm_bind {A B : Type} (m : store_m A) (f : A → store_m B) : store_m B :=
  fun log =>
    match m log with
    | (Ok a, log') => f a log'
    | (Raise e, log') => (Raise e, log')
    end.

Definition sm_lift {A : Type} (r : res A) : store_m A := fun log => (r, log).

#[global] Instance store_ret : MRet store_m := @sm_ret.
#[global] Instance store_bind : MBind store_m := fun _ _ f m => sm_bind m f.

(** What the transaction function of a graph call does with its arguments. *)
Definition tx_body (c : graph_call) : res unit :=
  match c with
  | CallUpsertEntities ents sf sp di =>
      _ ← upsert_entities json_dumps ents sf sp di; Ok ()
  | CallUpsertRelations rels sf =>
      _ ← upsert_relations rels sf; Ok ()
  end.

(** [session.execute_write(fn, ...)]: the call is made; it raises when the
    store rejects it or when [fn] itself raises. *)
Definition execute_write (c : graph_call) : store_m unit :=
  fun log =>
    let log' := log ++ [ExecuteWrite c] in
    if store_fails (length log) then (Raise StoreError, log')
    else (tx_body c, log').

(** [index_chunk(chunk, entity_ids, embedder)]: the POST and
    [resp.raise_for_status()]. *)
Definition index_chunk (chunk : Chunk) (entity_ids : list json) : store_m unit :=
  fun log =>
    let '(key, doc) := index_request embed chunk entity_ids in
    let log' := log ++ [IndexPost key doc] in
    if store_fails (length log) then (Raise StoreError, log')
    else (Ok (), log').

(** [[e.get("id") for e in entities if e.get("id")]] *)
Definition collect_ids (ents : list json) : res (list json) :=
  for_each (fun ids e =>
              id ← get e "id" JNull;
              if truthy id then (id' ← get e "id" JNull; Ok (ids ++ [id']))
              else Ok ids)
           ents [].

(** [if xs: m] for a list [xs]. *)
Definition when_nonempty {A : Type} (xs : list A) (m : store_m unit) : store_m unit :=
  match xs with
  | [] => sm_ret ()
  | _ => m
  end.

(** Body of [for chunk, kg in zip(chunk_batch, kg_list)]. The two
    [kg.get(_, []) or []] are the two list fields of the extraction result. *)
Definition write_chunk (chunk : Chunk) (slot : option KG) : store_m unit :=
  let kg := default empty_kg slot in
  let ents := entities kg in
  let rels := relations kg in
  _ ← when_nonempty ents
        (execute_write (CallUpsertEntities ents (source_file chunk)
                                           (section_path chunk) (doc_id chunk)));
  _ ← when_nonempty rels
        (execute_write (CallUpsertRelations rels (source_file chunk)));
  entity_ids ← sm_lift (collect_ids ents);
  index_chunk chunk entity_ids.

Fixpoint write_pairs (pairs : list (Chunk * option KG)) : store_m unit :=
  match pairs with
  | [] => sm_ret ()
  | (chunk, slot) :: rest => _ ← write_chunk chunk slot; write_pairs rest
  end.

Definition write_batch (chunk_batch : list Chunk) (kg_list : list (option KG))
  : store_m unit :=
  write_pairs (zip chunk_batch kg_list).

(** One iteration of [for chunk_batch in batched(...)]. *)
Definition process_batch (chunk_batch : list Chunk) (completion : list nat)
  : store_m unit :=
  write_batch chunk_batch (dispatch chunk_batch completion).

End Batch.
End IngestPipeline.

(** ** Specification-side definitions for the pipeline *)
Module PipelineSpec.
Import PyStr Json Chunker ExtractGraph CreateGraph CreateIndex IngestPipeline.

(** The extraction result that belongs in a slot: the result of the call,
    or the empty extraction when the call raised. *)
Definition degraded (r : res KG) : KG :=
  match r with
  | Ok kg => kg
  | Raise _ => empty_kg
  end.

(** The value under "id" of an entity when the key is present and the value
    is not empty (Python truth: not [None], not the empty string). *)
Definition present_id (e : json) : option json :=
  match e with
  | JDict items =>
      match dict_lookup "id" items with
      | Some v => if truthy v then Some v else None
      | None => None
      end
  | _ => None
  end.

Definition entity_ids_of (ents : list json) : list json := omap present_id ents.

(** The store calls that one chunk is expected to cause, in order: the
    entity upsert when there are entities, the relation upsert when there
    are relations, then the index record. *)
Definition expected_calls {vector : Type} (embed : string → vector)
    (pair : Chunk * option KG) : list (store_call vector) :=
  let chunk := pair.1 in
  let kg := default empty_kg pair.2 in
  (match entities kg with
   | [] => []
   | ents => [ExecuteWrite (CallUpsertEntities ents (source_file chunk)
                                               (section_path chunk) (doc_id chunk))]
   end) ++
  (match relations kg with
   | [] => []
   | rels => [ExecuteWrite (CallUpsertRelations rels (source_file chunk))]
   end) ++
  [IndexPost (chunk_id chunk)
     {| ix_chunk_id := chunk_id chunk;
        ix_doc_id := doc_id chunk;
        ix_source_file := source_file chunk;
        ix_section_path := section_path chunk;
        ix_text := text chunk;
        ix_entity_ids := entity_ids_of (entities kg);
        ix_vector := embed (text chunk) |}].

(** A computation only ever adds calls at the end of the log. *)
Definition extends {vector A : Type} (m : store_m vector A) : Prop :=
  ∀ log r log', m log = (r, log') → ∃ calls, log' = log ++ calls.

(** An extraction result whose entities and relations are all objects. *)
Definition is_dict (v : json) : Prop := ∃ items, v = JDict items.

Definition well_formed (slot : option KG) : Prop :=
  Forall is_dict (entities (default empty_kg slot)) ∧
  Forall is_dict (relations (default empty_kg slot)).

(** Sample inputs: three chunks, an extraction with four entities (one
    with an id, one without the key, one with an empty id, one with [None])
    and one relation, and stand-ins for the external collaborators. *)
Definition chunk_a : Chunk :=
  {| chunk_id := "5d41402abc4b2a76"; doc_id := "e9f16cefc49575a5";
     text := "Create a user with POST /users.";
     source_file := "api/users.md"; section_path := "Users > Create" |}.

Definition chunk_b : Chunk :=
  {| chunk_id := "7d793037a0760186"; doc_id := "e9f16cefc49575a5";
     text := "Delete a user with DELETE /users/{id}.";
     source_file := "api/users.md"; section_path := "Users > Delete" |}.

Definition chunk_c : Chunk :=
  {| chunk_id := "9ae0ea9e3c9c6e1b"; doc_id := "e9f16cefc49575a5";
     text := "Errors are reported as JSON.";
     source_file := "api/users.md"; section_path := "Users > Errors" |}.

Definition kg_users : KG :=
  {| entities :=
       [JDict [("id", JStr "users.create"); ("name", JStr "POST /users");
               ("type", JStr "endpoint")];
        JDict [("name", JStr "anonymous")];
        JDict [("id", JStr EmptyString); ("name", JStr "blank")];
        JDict [("id", JNull); ("name", JStr "none")]]%string;
     relations :=
       [JDict [("subject", JStr "users.create"); ("predicate", JStr "returns");
               ("object", JStr "user")]]%string |}.

(** The double quote character and a quoted word. *)
Definition dq : string := String "034"%char EmptyString.
Definition quoted (s : string) : string := dq +:+ s +:+ dq.

(** The text of an object with one entity, alone and wrapped in prose. *)
Definition reply_object : string :=
  "{" +:+ quoted "entities" +:+ ": [{" +:+ quoted "id" +:+ ": "
      +:+ quoted "http.client" +:+ "}]}".

Definition reply_wrapped : string :=
  "Here is the JSON: " +:+ reply_object +:+ " Hope this helps.".

(** What [json.loads] returns on the few texts used below. *)
Definition sample_json_loads (s : string) : option json :=
  if String.eqb s reply_object then
    Some (JDict [("entities", JList [JDict [("id", JStr "http.client")]])]%string)
  else if String.eqb s "[]" then Some (JList [])
  else if String.eqb s "{}" then Some (JDict [])
  else None.

(** Replies of the extraction service: an object for slot 0, a transport
    failure for slot 1, a JSON list for every other slot. *)
Definition sample_complete (idx : nat) (_ : string) : res string :=
  match idx with
  | O => Ok reply_wrapped
  | S O => Raise ExtractorError
  | _ => Ok "[]"%string
  end.

Definition sample_embed (t : string) : list Z := [len t].
Definition sample_json_dumps (_ : json) : string := "{}".
Definition store_never_fails (_ : nat) : bool := false.
Definition store_fails_first (k : nat) : bool := Nat.eqb k 0.
End PipelineSpec.

(** ** src/ingest/chunker.py: the directory walk *)
Module ChunkerDir.
Import PyStr Chunker.

(** [needle in s] for two strings. *)
Fixpoint contains (needle s : string) : bool :=
  String.prefix needle s ||
  match s with
  | EmptyString => false
  | String _ r => contains needle r
  end.

(** One element of [sorted(root.rglob("*.md"))] as [chunk_dir] uses it:
    [p.as_posix()], [str(p.relative_to(root))] and the text read from [p]. *)
Record md_file : Type := {
  posix_path : string;
  rel_path : string;
  md_text : string;
}.

(** [chunk_dir], materialised as [list(chunker.chunk_dir(root))]; [files] is
    the sorted listing of the tree. *)
Definition chunk_dir (self : SectionChunker) (files : list md_file) : res (list Chunk) :=
  for_each (fun chunks f =>
              if contains "/assets/" (posix_path f) then Ok chunks
              else (cs ← chunk_markdown_text self (md_text f) (rel_path f);
                    Ok (chunks ++ cs)))
           files [].

End ChunkerDir.

(** ** src/ingest/ingest_pipeline.py: batching and the two ingestion modes *)
Module IngestRun.
Import Json Chunker ExtractGraph CreateGraph CreateIndex IngestPipeline.

(** [batched(iterable, n)] on a list, for a count [n] that is not negative:
    [list(islice(it, n))] takes the next [n] elements, and an empty batch
    ends the generator. *)
Equations? batched {A : Type} (xs : list A) (n : nat) : list (list A)
  by wf (length xs) lt :=
  batched xs n :=
    match decide (take n xs = []) with
    | left _ => []
    | right _ => take n xs :: batched (drop n xs) n
    end.
Proof.
  destruct n as [|n]; [done|]. destruct xs as [|x xs]; [done|].
  rewrite length_drop. simpl. lia.
Qed.

(** [effective_batch_size = max(1, batch_size)] *)
Definition effective_batch_size (batch_size : Z) : nat :=
  Z.to_nat (Z.max 1 batch_size).

Section Run.

Variable vector : Type.
Variable embed : string → vector.
Variable json_loads : string → option json.
Variable json_dumps : json → string.
(** The reply to the extraction request submitted for slot [idx] of batch
    number [k], and the order in which the futures of batch [k] complete. *)
Variable complete : nat → nat → string → res string.
Variable completion : nat → list nat.
Variable store_fails : nat → bool.

(** Plain mode, lines 62-65: one index record per chunk, no entity ids. *)
Fixpoint index_all (chunks : list Chunk) : store_m vector unit :=
  match chunks with
  | [] => sm_ret vector ()
  | chunk :: rest =>
      _ ← index_chunk vector embed store_fails chunk []; index_all rest
  end.

(** Graph mode, lines 82-126: the batches in order; [k] numbers them. *)
Fixpoint graph_batches (batches : list (list Chunk)) (k : nat) : store_m vector unit :=
  match batches with
  | [] => sm_ret vector ()
  | chunk_batch :: rest =>
      _ ← match chunk_batch with
          | [] => sm_ret vector ()
          | _ => process_batch vector embed json_loads json_dumps (complete k)
                               store_fails chunk_batch (completion k)
          end;
      graph_batches rest (S k)
  end.

(** [ingest_docs] from the materialised chunk list to the end of the text
    ingestion (lines 49-126). *)
Definition ingest_chunks (chunks : list Chunk) (enable_graph : bool) (batch_size : Z)
  : store_m vector unit :=
  match chunks with
  | [] => sm_ret vector ()
  | _ =>
      if enable_graph
      then graph_batches (batched chunks (effective_batch_size batch_size)) O
      else index_all chunks
  end.

End Run.
End IngestRun.

(** ** Specification-side definitions for the further properties *)
Module ExtraSpec.
Import PyStr Json Chunker ChunkerSpec ExtractGraph CreateGraph CreateIndex IngestPipeline
  PipelineSpec.

(** A lower-case hexadecimal digit. *)
Definition is_hex_lower (c : ascii) : Prop :=
  (48 <= code c <= 57)%N ∨ (97 <= code c <= 102)%N.

(** Whether a line opens a section. *)
Definition is_heading (ln : string) : bool :=
  match H_RE_match ln with
  | Some _ => true
  | None => false
  end.

(** Whether a string starts with the character [c]. *)
Definition starts_with (c : ascii) (s : string) : Prop :=
  ∃ r, s = String c r.

(** The shape of an emitted section: a label that is not empty, and a text
    that is a trimmed body followed by one line feed. *)
Definition section_shape (sec : string * string) : Prop :=
  sec.1 ≠ EmptyString ∧ ∃ body, sec.2 = body +:+ NL ∧ strip body = body.

(** The state of the section splitter after [k] heading lines: before the
    first heading nothing is emitted and no path is set; after it, the
    emitted sections are at most one root section followed by one section
    per earlier heading, each starting with '#', and the buffer starts with
    the latest heading line. *)
Definition split_inv (k : nat) (st : splitter) : Prop :=
  (k = O ∧ sections st = [] ∧ path st = []) ∨
  (∃ root hs h rest,
     sections st = root ++ hs ∧ (length root <= 1)%nat ∧
     Forall (fun sec => sec.1 = "(root)"%string) root ∧
     Forall (fun sec => starts_with "#" sec.2) hs ∧
     buf st = h :: rest ∧ starts_with "#" h ∧ S (length hs) = k).

(** The keys of the index records of a log, in order. *)
Definition index_keys {vector : Type} (log : list (store_call vector)) : list string :=
  omap (fun c => match c with
                 | IndexPost key _ => Some key
                 | ExecuteWrite _ => None
                 end) log.

(** A computation that posts the index records [keys], in order: it only
    adds calls to the log, the index records among them are a prefix of
    [keys], and all of [keys] when it returns. *)
Definition posts {vector A : Type} (keys : list string) (m : store_m vector A) : Prop :=
  ∀ log r log', m log = (r, log') →
    ∃ calls k, log' = log ++ calls ∧ index_keys calls = take k keys ∧
               (∀ a, r = Ok a → index_keys calls = keys).

(** The index record of plain mode for a chunk. *)
Definition plain_post {vector : Type} (embed : string → vector) (chunk : Chunk)
  : store_call vector :=
  IndexPost (chunk_id chunk) (index_request embed chunk []).2.

(** Sample inputs: an extraction service that is down, a completion order,
    and a small tree with one file under an assets folder. *)
Definition complete_down (_ _ : nat) (_ : string) : res string := Raise ExtractorError.
Definition complete_sample (_ : nat) : nat → string → res string := sample_complete.
Definition completion_reversed (_ : nat) : list nat := [1; 0]%nat.

Definition sample_tree : list ChunkerDir.md_file :=
  [ {| ChunkerDir.posix_path := "docs/a.md"; ChunkerDir.rel_path := "a.md";
       ChunkerDir.md_text := twin_sections_doc |};
    {| ChunkerDir.posix_path := "docs/assets/notes.md";
       ChunkerDir.rel_path := "assets/notes.md";
       ChunkerDir.md_text := sample_doc |};
    {| ChunkerDir.posix_path := "docs/b/guide.md"; ChunkerDir.rel_path := "b/guide.md";
       ChunkerDir.md_text := sample_doc |} ]%string.

End ExtraSpec.

(** * Properties *)

(** ** The digest agrees with the published SHA-1 test vectors *)

Example sha1_abc :
  Sha1.hexdigest (PyStr.encode_utf8 "abc") = "a9993e364706816aba3e25717850c26c9cd0d89d"%string.
Proof. vm_compute. reflexivity. Qed.

Example sha1_empty :
  Sha1.hexdigest [] = "da39a3ee5e6b4b0d3255bfef95601890afd80709"%string.
Proof. vm_compute. reflexivity. Qed.

Example sha1_two_blocks :
  Sha1.hexdigest
    (PyStr.encode_utf8 "abcdbcdecdefdefgefghfghighijhijkijkljklmklmnlmnomnopnopq")
  = "84983e441c3bd26ebaae4aa1f95129e5e54670f1"%string.
Proof. vm_compute. reflexivity. Qed.

(** ** The window slicer *)
Section WindowSlicer.
Import PyStr Chunker ChunkerSpec.

Variables (sz ov n : Z).

#[local] Abbreviation windows_from := (ChunkerSpec.windows_from sz ov n).
#[local] Abbreviation tiles := (ChunkerSpec.tiles sz ov n).

(** The accumulator of the loop is only ever extended. *)
Lemma char_windows_loop_acc (i : Z) (out : list (Z * Z)) :
  char_windows_loop sz ov n i out = out ++ char_windows_loop sz ov n i [].
Proof.
  remember (Z.to_nat (n - i)) as k eqn:Hk.
  revert i out Hk.
  induction (lt_wf k) as [k _ IH]; intros i out ->.
  rewrite (char_windows_loop_equation_1 sz ov n i out),
          (char_windows_loop_equation_1 sz ov n i []).
  destruct (decide (i < n)) as [Hlt|Hge]; [|by rewrite app_nil_r].
  cbv zeta.
  destruct (decide (Z.min (i + sz) n >= n)) as [Hend|Hmore]; [done|].
  set (i' := Z.max (Z.min (i + sz) n - ov) (i + 1)).
  assert (Z.to_nat (n - i') < Z.to_nat (n - i))%nat as Hdec by lia.
  rewrite (IH _ Hdec i' (out ++ _) eq_refl).
  rewrite (IH _ Hdec i' ([] ++ _) eq_refl).
  by rewrite <- app_assoc.
Qed.

Lemma windows_from_done (i : Z) : n <= i → windows_from i = [].
Proof.
  intros Hi. unfold windows_from. rewrite char_windows_loop_equation_1.
  destruct (decide (i < n)); [lia | done].
Qed.

Lemma windows_from_last (i : Z) :
  i < n → n <= i + sz → windows_from i = [(i, n)].
Proof.
  intros Hi Hend. unfold windows_from. rewrite char_windows_loop_equation_1.
  destruct (decide (i < n)); [|lia]. cbv zeta.
  destruct (decide (Z.min (i + sz) n >= n)); [|lia].
  by rewrite Z.min_r by lia.
Qed.

Lemma windows_from_more (i : Z) :
  0 <= ov < sz → i < n → i + sz < n →
  windows_from i = (i, i + sz) :: windows_from (i + sz - ov).
Proof.
  intros Hov Hi Hmore. unfold windows_from. rewrite char_windows_loop_equation_1.
  destruct (decide (i < n)); [|lia]. cbv zeta.
  destruct (decide (Z.min (i + sz) n >= n)); [lia|].
  rewrite char_windows_loop_acc.
  rewrite Z.min_l by lia. rewrite Z.max_l by lia. done.
Qed.

Lemma windows_from_tiles (i : Z) : 0 <= ov < sz → tiles i (windows_from i).
Proof.
  intros Hov.
  remember (Z.to_nat (n - i)) as k eqn:Hk.
  revert i Hk.
  induction (lt_wf k) as [k _ IH]; intros i ->.
  destruct (decide (i < n)) as [Hlt|Hge].
  - destruct (decide (n <= i + sz)) as [Hend|Hmore].
    + rewrite windows_from_last by lia. simpl. lia.
    + rewrite windows_from_more by lia.
      assert (Z.to_nat (n - (i + sz - ov)) < Z.to_nat (n - i))%nat as Hdec by lia.
      pose proof (IH _ Hdec _ eq_refl) as Ht.
      simpl. split; [done|]. split; [done|].
      destruct (windows_from (i + sz - ov)) as [|w rest] eqn:Hw.
      * simpl in Ht. lia.
      * repeat split; try lia. exact Ht.
  - rewrite windows_from_done by lia. simpl. lia.
Qed.


Lemma tiles_cons_inv (i : Z) (w : Z * Z) (rest : list (Z * Z)) :
  tiles i (w :: rest) →
  w.1 = i ∧ i < n ∧
  ((rest = [] ∧ w.2 = n ∧ n <= i + sz) ∨
   (rest ≠ [] ∧ w.2 = i + sz ∧ w.2 < n ∧ tiles (w.2 - ov) rest)).
Proof.
  destruct w as [a b]. simpl. intros (Ha & Hi & Hrest).
  split; [done|]. split; [done|].
  destruct rest as [|w' rest']; [left|right]; simpl; intuition congruence.
Qed.

Lemma tiles_bounds (i : Z) (ws : list (Z * Z)) :
  0 <= ov < sz → tiles i ws →
  ∀ w, w ∈ ws → i <= w.1 ∧ w.1 < n ∧ w.1 < w.2 ∧ w.2 <= n.
Proof.
  intros Hov. revert i.
  induction ws as [|w0 rest IH]; intros i Ht w Hin.
  - by apply elem_of_nil in Hin.
  - apply tiles_cons_inv in Ht as (Ha & Hi & [(-> & Hb & Hend)|(Hne & Hb & Hlt & Ht)]).
    + apply list_elem_of_singleton in Hin as ->. lia.
    + apply elem_of_cons in Hin as [->|Hin]; [lia|].
      specialize (IH _ Ht _ Hin). lia.
Qed.

Lemma tiles_cover (i : Z) (ws : list (Z * Z)) :
  0 <= ov < sz → tiles i ws →
  ∀ p, i <= p < n → ∃ w, w ∈ ws ∧ w.1 <= p < w.2.
Proof.
  intros Hov. revert i.
  induction ws as [|w0 rest IH]; intros i Ht p Hp.
  - simpl in Ht. lia.
  - apply tiles_cons_inv in Ht as (Ha & Hi & [(-> & Hb & Hend)|(Hne & Hb & Hlt & Ht)]).
    + exists w0. split; [apply list_elem_of_here | lia].
    + destruct (decide (p < w0.2)) as [Hin|Hout].
      * exists w0. split; [apply list_elem_of_here | lia].
      * destruct (IH _ Ht p) as (w & Hw & Hpw); [lia|].
        exists w. split; [by apply list_elem_of_further | done].
Qed.

Lemma tiles_consecutive (i : Z) (ws : list (Z * Z)) :
  0 <= ov < sz → tiles i ws →
  ∀ k w1 w2, ws !! k = Some w1 → ws !! S k = Some w2 →
    w2.1 = w1.2 - ov ∧ w1.1 < w2.1 ∧ w2.1 <= w1.2 ∧ w1.2 <= w2.2.
Proof.
  intros Hov. revert i.
  induction ws as [|w0 rest IH]; intros i Ht k w1 w2 H1 H2; [done|].
  apply tiles_cons_inv in Ht as (Ha & Hi & [(-> & Hb & Hend)|(Hne & Hb & Hlt & Ht)]).
  - done.
  - destruct k as [|k]; simpl in H1, H2.
    + injection H1 as <-.
      destruct rest as [|w' rest']; [done|]. injection H2 as <-.
      pose proof (tiles_bounds _ _ Hov Ht w' (list_elem_of_here _ _)) as Hw'.
      apply tiles_cons_inv in Ht as (Ha' & _ & [(_ & Hb' & _)|(_ & Hb' & _)]); lia.
    + exact (IH _ Ht k w1 w2 H1 H2).
Qed.

Lemma tiles_last (i : Z) (ws : list (Z * Z)) :
  tiles i ws → ws ≠ [] → ∃ w, last ws = Some w ∧ w.2 = n.
Proof.
  revert i.
  induction ws as [|w0 rest IH]; intros i Ht Hne; [done|].
  apply tiles_cons_inv in Ht as (Ha & Hi & [(-> & Hb & Hend)|(Hne' & Hb & Hlt & Ht)]).
  - by exists w0.
  - destruct (IH _ Ht Hne') as (w & Hw & Hn).
    exists w. split; [|done].
    destruct rest; [done|]. by rewrite last_cons_cons.
Qed.

End WindowSlicer.

Section WindowSlicerLaws.
Import PyStr Chunker ChunkerSpec.

Lemma char_windows_ok (s : string) (sz ov : Z) :
  0 < sz → 0 <= ov < sz →
  _char_windows s sz ov = Ok (windows_from sz ov (len s) 0).
Proof.
  intros Hsz Hov. unfold _char_windows.
  destruct (Z.ltb_spec 0 sz); [|lia].
  destruct (Z.leb_spec 0 ov); [|lia].
  destruct (Z.ltb_spec ov sz); [|lia]. done.
Qed.

Lemma len_nonneg (s : string) : 0 <= len s.
Proof. unfold len. lia. Qed.

Lemma len_pos (s : string) : s ≠ EmptyString → 0 < len s.
Proof. destruct s; [done|]. unfold len. simpl. lia. Qed.

(** C2. For every text, window size [sz > 0] and overlap [0 <= ov < sz] the
    slicer returns a list of windows such that: every character position
    lies in a window; window starts strictly increase; every window starts
    before the end of the text, is not empty and ends within the text; the
    last window of a non-empty text ends at the end of the text; two
    consecutive windows share exactly [ov] characters; and on 2000
    characters with size 800 and overlap 120 the windows are (0, 800),
    (680, 1480), (1360, 2000). *)
Theorem char_windows_laws (s : string) (sz ov : Z) :
  0 < sz → 0 <= ov < sz →
  ∃ ws, _char_windows s sz ov = Ok ws ∧
    (∀ p, 0 <= p < len s → ∃ w, w ∈ ws ∧ w.1 <= p < w.2) ∧
    (∀ k w1 w2, ws !! k = Some w1 → ws !! S k = Some w2 → w1.1 < w2.1) ∧
    (∀ w, w ∈ ws → 0 <= w.1 ∧ w.1 < len s ∧ w.1 < w.2 ∧ w.2 <= len s) ∧
    (s ≠ EmptyString → ∃ w, last ws = Some w ∧ w.2 = len s) ∧
    (∀ k w1 w2, ws !! k = Some w1 → ws !! S k = Some w2 →
       Z.min w1.2 w2.2 - Z.max w1.1 w2.1 = ov) ∧
    (sz = 800 → ov = 120 → len s = 2000 →
       ws = [(0, 800); (680, 1480); (1360, 2000)]).
Proof.
  intros Hsz Hov. exists (windows_from sz ov (len s) 0).
  pose proof (windows_from_tiles sz ov (len s) 0 Hov) as Ht.
  split; [by apply char_windows_ok|].
  split; [exact (tiles_cover _ _ _ _ _ Hov Ht)|].
  split.
  { intros k w1 w2 H1 H2.
    pose proof (tiles_consecutive _ _ _ _ _ Hov Ht k w1 w2 H1 H2). lia. }
  split.
  { intros w Hw. pose proof (tiles_bounds _ _ _ _ _ Hov Ht w Hw). lia. }
  split.
  { intros Hne. apply (tiles_last _ _ _ _ _ Ht).
    intros Hnil. rewrite Hnil in Ht. simpl in Ht.
    pose proof (len_pos s Hne). lia. }
  split.
  { intros k w1 w2 H1 H2.
    pose proof (tiles_consecutive _ _ _ _ _ Hov Ht k w1 w2 H1 H2). lia. }
  intros -> -> ->. vm_compute. reflexivity.
Qed.

Lemma char_windows_laws_witness :
  0 < 800 ∧ 0 <= 120 < 800 ∧
  ∃ ws, _char_windows (text_of_length 2000) 800 120 = Ok ws ∧
    (∀ p, 0 <= p < len (text_of_length 2000) → ∃ w, w ∈ ws ∧ w.1 <= p < w.2) ∧
    (∀ k w1 w2, ws !! k = Some w1 → ws !! S k = Some w2 → w1.1 < w2.1) ∧
    (∀ w, w ∈ ws →
       0 <= w.1 ∧ w.1 < len (text_of_length 2000) ∧ w.1 < w.2 ∧
       w.2 <= len (text_of_length 2000)) ∧
    (text_of_length 2000 ≠ EmptyString →
       ∃ w, last ws = Some w ∧ w.2 = len (text_of_length 2000)) ∧
    (∀ k w1 w2, ws !! k = Some w1 → ws !! S k = Some w2 →
       Z.min w1.2 w2.2 - Z.max w1.1 w2.1 = 120) ∧
    (800 = 800 → 120 = 120 → len (text_of_length 2000) = 2000 →
       ws = [(0, 800); (680, 1480); (1360, 2000)]).
Proof.
  split; [lia|]. split; [lia|].
  apply (char_windows_laws (text_of_length 2000) 800 120); lia.
Defined.

Example char_windows_2000 :
  _char_windows (text_of_length 2000) 800 120
  = Ok [(0, 800); (680, 1480); (1360, 2000)].
Proof. vm_compute. reflexivity. Qed.

(** C9, as stated, fails on the empty text: the loop body never runs and no
    window is produced. *)
Lemma short_text_one_window_counterexample :
  ¬ (∀ (s : string) (sz ov : Z), 0 < sz → 0 <= ov < sz → len s < sz →
       _char_windows s sz ov = Ok [(0, len s)]).
Proof.
  intros H. specialize (H EmptyString 5 0 ltac:(lia) ltac:(lia) ltac:(done)).
  vm_compute in H. discriminate H.
Qed.

(** C9, amended. A non-empty text strictly shorter than the window size
    yields exactly one window, from offset 0 to the length of the text; the
    empty text yields no window. *)
Theorem short_text_one_window (s : string) (sz ov : Z) :
  0 < sz → 0 <= ov < sz → len s < sz →
  (s ≠ EmptyString → _char_windows s sz ov = Ok [(0, len s)]) ∧
  (s = EmptyString → _char_windows s sz ov = Ok []).
Proof.
  intros Hsz Hov Hshort. rewrite char_windows_ok by done. split.
  - intros Hne. pose proof (len_pos s Hne).
    by rewrite windows_from_last by lia.
  - intros ->. by rewrite windows_from_done.
Qed.

Lemma short_text_one_window_witness :
  0 < 800 ∧ 0 <= 120 < 800 ∧ len "abc" < 800 ∧
  ("abc"%string ≠ EmptyString → _char_windows "abc" 800 120 = Ok [(0, len "abc")]) ∧
  ("abc"%string = EmptyString → _char_windows "abc" 800 120 = Ok []).
Proof.
  split; [lia|]. split; [lia|]. split; [done|].
  apply (short_text_one_window "abc" 800 120); [lia | lia | done].
Defined.

End WindowSlicerLaws.

(** ** The section splitter *)
Section SectionSplitter.
Import PyStr Chunker ChunkerSpec.

(** Lines that are not headings only extend the buffer. *)
Lemma split_plain_lines (lines : list string) (st : splitter) :
  Forall (fun ln => H_RE_match ln = None) lines →
  fold_left split_step lines st
  = {| sections := sections st; path := path st; buf := buf st ++ lines |}.
Proof.
  revert st. induction lines as [|ln lines IH]; intros st Hplain.
  - simpl. rewrite app_nil_r. by destruct st.
  - apply Forall_cons in Hplain as [Hln Hrest]. simpl.
    rewrite (IH _ Hrest). unfold split_step. rewrite Hln. simpl.
    by rewrite <- app_assoc.
Qed.

(** Once a line has been read the buffer is never empty. *)
Lemma split_buf_nonempty (lines : list string) (st : splitter) :
  lines ≠ [] ∨ buf st ≠ [] → buf (fold_left split_step lines st) ≠ [].
Proof.
  revert st. induction lines as [|ln lines IH]; intros st Hne.
  - simpl. by destruct Hne.
  - simpl. apply IH. right. unfold split_step.
    destruct (H_RE_match ln) as [[level text]|]; simpl; [done|].
    by destruct (buf st).
Qed.

Lemma splitlines_aux_nil (cur : list ascii) (s : string) :
  splitlines_aux cur s = [] → cur = [] ∧ s = EmptyString.
Proof.
  revert cur. induction s as [|c r IH]; intros cur; simpl.
  - by destruct cur.
  - destruct (Ascii.eqb c CR).
    + destruct r as [|d r']; [done|]. by destruct (Ascii.eqb d LF).
    + destruct (islinebreak c); [done|].
      intros H. by apply IH in H as [? _].
Qed.

Lemma splitlines_nil (s : string) : splitlines s = [] ↔ s = EmptyString.
Proof.
  split.
  - intros H. by apply splitlines_aux_nil in H as [_ ?].
  - by intros ->.
Qed.

(** C8, as stated, fails. The empty document has no heading line and yields
    no section at all, so not every document without headings yields one
    section; the text of the single section of the one-line document "abc"
    is that line followed by a line feed, not the document itself; and in
    the document made of a blank line followed by the heading "# A", the
    section closed by the heading is emitted although its text is empty
    after trimming. *)
Lemma split_sections_counterexample :
  ¬ (∀ md : string,
       Forall (fun ln => H_RE_match ln = None) (splitlines md) →
       ∃ text, _split_sections md = [("(root)"%string, text)]) ∧
  (Forall (fun ln => H_RE_match ln = None) (splitlines "abc") ∧
   _split_sections "abc" ≠ [("(root)"%string, "abc"%string)]) ∧
  (∃ text, head (_split_sections blank_then_heading_doc) = Some ("(root)"%string, text) ∧
           strip text = EmptyString).
Proof.
  split; [|split].
  - intros H. destruct (H EmptyString) as [text Htext]; [by constructor|].
    vm_compute in Htext. discriminate Htext.
  - split; [vm_compute; repeat constructor|].
    vm_compute. discriminate.
  - exists NL. vm_compute. done.
Qed.

(** C8, amended. A non-empty document without heading lines yields exactly
    one section, under the root sentinel, whose text is the lines of the
    document joined by line feeds, trimmed, and followed by one line feed;
    the empty document yields no section; and the section closed by a
    heading is emitted exactly when some line precedes that heading, whatever
    its text is after trimming. *)
Theorem split_sections_no_heading (md : string) (before : list string) (heading : string) :
  Forall (fun ln => H_RE_match ln = None) (splitlines md) →
  H_RE_match heading ≠ None →
  _split_sections md
  = (if is_empty md then []
     else [("(root)"%string,
            strip (join NL (splitlines md)) +:+ NL)]) ∧
  sections (fold_left split_step (before ++ [heading]) split_init)
  = (let st := fold_left split_step before split_init in
     match before with
     | [] => []
     | _ => sections st ++
            [(path_label (path st),
              strip (join NL (buf st)) +:+ NL)]
     end).
Proof.
  intros Hplain Hhead. split.
  - unfold _split_sections. fold split_init.
    rewrite (split_plain_lines _ _ Hplain). unfold flush. simpl.
    destruct (splitlines md) as [|ln lines] eqn:Hlines.
    + apply splitlines_nil in Hlines as ->. done.
    + destruct md; [done|]. done.
  - rewrite fold_left_app. simpl.
    set (st := fold_left split_step before split_init).
    unfold split_step.
    destruct (H_RE_match heading) as [[level text]|]; [|done]. simpl.
    unfold flush. destruct before as [|ln before']; [done|].
    assert (buf st ≠ []) as Hbuf by (apply split_buf_nonempty; by left).
    by destruct (buf st).
Qed.

Lemma split_sections_no_heading_witness :
  Forall (fun ln => H_RE_match ln = None) (splitlines two_lines_doc) ∧
  H_RE_match "## Usage" ≠ None ∧
  _split_sections two_lines_doc
  = (if is_empty two_lines_doc then []
     else [("(root)"%string,
            strip (join NL (splitlines two_lines_doc))
            +:+ NL)]) ∧
  sections (fold_left split_step (["# Guide"; "text"]%string ++ ["## Usage"%string]) split_init)
  = (let st := fold_left split_step ["# Guide"; "text"]%string split_init in
     match ["# Guide"; "text"]%string with
     | [] => []
     | _ => sections st ++
            [(path_label (path st),
              strip (join NL (buf st)) +:+ NL)]
     end).
Proof.
  assert (Forall (fun ln => H_RE_match ln = None)
                 (splitlines two_lines_doc)) as H1.
  { vm_compute. repeat constructor. }
  assert (H_RE_match "## Usage" ≠ None) as H2 by (vm_compute; discriminate).
  split; [exact H1|]. split; [exact H2|].
  exact (split_sections_no_heading _ _ _ H1 H2).
Defined.

End SectionSplitter.

(** ** The chunker *)
Section ChunkerLaws.
Import PyStr Chunker ChunkerSpec.

Lemma numbered_app (doc source : string) (k : nat) (ps qs : list (string * string)) :
  numbered doc source k (ps ++ qs)
  = numbered doc source k ps ++ numbered doc source (k + length ps) qs.
Proof.
  unfold numbered. rewrite imap_app. f_equal.
  apply imap_ext. intros i p _. f_equal. lia.
Qed.

Lemma numbered_cons (doc source : string) (k : nat) (p : string * string)
    (ps : list (string * string)) :
  numbered doc source k (p :: ps)
  = chunk_at doc source k p :: numbered doc source (S k) ps.
Proof.
  unfold numbered. rewrite imap_cons. rewrite Nat.add_0_r. f_equal.
  apply imap_ext. intros i q _. simpl. f_equal. lia.
Qed.

Lemma numbered_length (doc source : string) (k : nat) (ps : list (string * string)) :
  length (numbered doc source k ps) = length ps.
Proof. unfold numbered. by rewrite length_imap. Qed.

Lemma numbered_lookup (doc source : string) (k i : nat) (ps : list (string * string)) (c : Chunk) :
  numbered doc source k ps !! i = Some c →
  ∃ p, ps !! i = Some p ∧ c = chunk_at doc source (k + i) p.
Proof.
  unfold numbered. rewrite list_lookup_imap.
  destruct (ps !! i) as [p|]; simpl; [|done].
  intros [= <-]. by exists p.
Qed.

(** The inner loop appends the pieces of the windows, numbered from the
    current value of the counter. *)
Lemma emit_windows (doc source : string) (sec : string * string)
    (ws : list (Z * Z)) (cs : list Chunk) (k : nat) :
  fold_left (emit_window doc source sec.1 sec.2) ws (cs, k)
  = (cs ++ numbered doc source k (window_pieces sec ws),
     (k + length (window_pieces sec ws))%nat).
Proof.
  revert cs k. induction ws as [|w ws IH]; intros cs k.
  - simpl. rewrite app_nil_r. f_equal. unfold window_pieces. simpl. lia.
  - simpl. unfold emit_window at 2. simpl.
    unfold window_pieces. simpl.
    destruct (is_empty (strip (slice sec.2 w.1 w.2))) eqn:Hpiece.
    + rewrite filter_cons_False by (simpl; congruence).
      apply IH.
    + rewrite filter_cons_True by done.
      rewrite IH. unfold window_pieces. simpl. f_equal; [|lia].
      rewrite <- app_assoc. f_equal.
      by rewrite numbered_cons.
Qed.

Lemma chunk_sections (self : SectionChunker) (doc source : string)
    (secs : list (string * string)) (cs : list Chunk) (k : nat)
    (acc : list (string * string)) :
  for_each (chunk_section self doc source) secs
           (cs ++ numbered doc source k acc, (k + length acc)%nat)
  = (acc' ← for_each (fun acc sec => ps ← section_pieces self sec; Ok (acc ++ ps))
                     secs acc;
     Ok (cs ++ numbered doc source k acc', (k + length acc')%nat)).
Proof.
  revert acc. induction secs as [|sec secs IH]; intros acc; [done|].
  simpl. unfold chunk_section at 2, section_pieces at 2.
  destruct (_char_windows sec.2 (size self) (over self)) as [ws|e]; [|done].
  simpl. rewrite emit_windows.
  rewrite <- app_assoc, <- numbered_app, <- Nat.add_assoc, <- length_app.
  apply IH.
Qed.

(** The chunker numbers the pieces of the document from zero. *)
Lemma chunk_markdown_text_pieces (self : SectionChunker) (md source : string) :
  chunk_markdown_text self md source
  = (ps ← document_pieces self md;
     Ok (numbered (_hash_id [doc_key md source]) source O ps)).
Proof.
  unfold chunk_markdown_text, document_pieces.
  set (doc := _hash_id [doc_key md source]).
  change ([] : list Chunk, O) with ([] ++ numbered doc source O [], (0 + length (@nil (string * string)))%nat).
  rewrite chunk_sections.
  by destruct (for_each _ _ _).
Qed.

Lemma document_pieces_ok (self : SectionChunker) (md : string) :
  0 <= over self < size self → ∃ ps, document_pieces self md = Ok ps.
Proof.
  intros Hcfg. unfold document_pieces.
  generalize (@nil (string * string)).
  induction (_split_sections md) as [|sec secs IH]; intros acc; [by eexists|].
  simpl. unfold section_pieces at 2.
  rewrite char_windows_ok by lia. simpl. apply IH.
Qed.

Lemma chunk_lookup (self : SectionChunker) (md source : string)
    (cs : list Chunk) (i : nat) (c : Chunk) :
  chunk_markdown_text self md source = Ok cs → cs !! i = Some c →
  ∃ ps p, document_pieces self md = Ok ps ∧ ps !! i = Some p ∧
          c = chunk_at (_hash_id [doc_key md source]) source i p.
Proof.
  rewrite chunk_markdown_text_pieces.
  destruct (document_pieces self md) as [ps|e]; [|done]. simpl.
  intros [= <-] Hc. apply numbered_lookup in Hc as (p & Hp & ->).
  by exists ps, p.
Qed.

Lemma chunk_id_by_position (self : SectionChunker) (md source : string)
    (cs : list Chunk) (i : nat) (c : Chunk) :
  chunk_markdown_text self md source = Ok cs → cs !! i = Some c →
  chunk_id c = _hash_id [doc_id c; section_path c; str_of_int (Z.of_nat i)].
Proof.
  intros Hrun Hc. by destruct (chunk_lookup _ _ _ _ _ _ Hrun Hc) as (ps & p & _ & _ & ->).
Qed.

Lemma window_pieces_nonempty (sec : string * string) (ws : list (Z * Z)) :
  Forall (fun p => p.2 ≠ EmptyString) (window_pieces sec ws).
Proof.
  unfold window_pieces. apply Forall_forall. intros p Hp.
  apply list_elem_of_filter in Hp as [Hp _]. by destruct p.2.
Qed.

Lemma document_pieces_nonempty (self : SectionChunker) (md : string)
    (ps : list (string * string)) :
  document_pieces self md = Ok ps → Forall (fun p => p.2 ≠ EmptyString) ps.
Proof.
  unfold document_pieces.
  assert (Forall (fun p : string * string => p.2 ≠ EmptyString) []) as Hacc by constructor.
  revert Hacc. generalize (@nil (string * string)). revert ps.
  induction (_split_sections md) as [|sec secs IH]; intros ps acc Hacc; simpl.
  - by intros [= <-].
  - unfold section_pieces at 2.
    destruct (_char_windows sec.2 (size self) (over self)) as [ws|e]; [|done].
    simpl. apply IH. apply Forall_app. split; [done|apply window_pieces_nonempty].
Qed.

Lemma numbered_paths_texts (doc source : string) (k : nat) (ps : list (string * string)) :
  map (fun c => (section_path c, text c)) (numbered doc source k ps) = ps.
Proof.
  revert k. induction ps as [|[p t] ps IH]; intros k; [done|].
  rewrite numbered_cons. simpl. by rewrite IH.
Qed.

(** C3. With a valid configuration the chunker returns a chunk sequence,
    and a second run on the same text and source path returns the same ids,
    section paths and texts. The id of the chunk at position [i] of the
    whole sequence is the hash of (doc id, section path, [i]). The sequence
    of (section path, text) pairs is exactly the sequence of trimmed window
    slices that are not empty, over all sections in order: empty slices are
    skipped and take no position. *)
Theorem chunking_content_addressed (self : SectionChunker) (md source : string) :
  0 <= over self < size self →
  ∃ cs ps,
    chunk_markdown_text self md source = Ok cs ∧
    document_pieces self md = Ok ps ∧
    (∀ cs', chunk_markdown_text self md source = Ok cs' →
       map chunk_id cs' = map chunk_id cs ∧
       map section_path cs' = map section_path cs ∧
       map text cs' = map text cs) ∧
    (∀ i c, cs !! i = Some c →
       doc_id c = _hash_id [doc_key md source] ∧
       chunk_id c = _hash_id [doc_id c; section_path c; str_of_int (Z.of_nat i)]) ∧
    map (fun c => (section_path c, text c)) cs = ps ∧
    Forall (fun c => text c ≠ EmptyString) cs.
Proof.
  intros Hcfg. destruct (document_pieces_ok self md Hcfg) as [ps Hps].
  pose proof (chunk_markdown_text_pieces self md source) as Hrun.
  rewrite Hps in Hrun. simpl in Hrun.
  eexists _, ps. split; [exact Hrun|]. split; [done|].
  split. { intros cs' Hcs'. rewrite Hrun in Hcs'. by injection Hcs' as <-. }
  split.
  { intros i c Hc. split; [|by eapply chunk_id_by_position].
    by apply numbered_lookup in Hc as (p & _ & ->). }
  split; [apply numbered_paths_texts|].
  apply Forall_forall. intros c Hc.
  apply list_elem_of_lookup in Hc as [i Hc].
  apply numbered_lookup in Hc as (p & Hp & ->). simpl.
  pose proof (document_pieces_nonempty _ _ _ Hps) as Hne.
  rewrite Forall_forall in Hne. apply Hne.
  apply list_elem_of_lookup. by exists i.
Qed.


Lemma chunking_content_addressed_witness :
  0 <= over sample_chunker < size sample_chunker ∧
  ∃ cs ps,
    chunk_markdown_text sample_chunker sample_doc "guide.md" = Ok cs ∧
    document_pieces sample_chunker sample_doc = Ok ps ∧
    (∀ cs', chunk_markdown_text sample_chunker sample_doc "guide.md" = Ok cs' →
       map chunk_id cs' = map chunk_id cs ∧
       map section_path cs' = map section_path cs ∧
       map text cs' = map text cs) ∧
    (∀ i c, cs !! i = Some c →
       doc_id c = _hash_id [doc_key sample_doc "guide.md"] ∧
       chunk_id c = _hash_id [doc_id c; section_path c; str_of_int (Z.of_nat i)]) ∧
    map (fun c => (section_path c, text c)) cs = ps ∧
    Forall (fun c => text c ≠ EmptyString) cs.
Proof.
  split; [simpl; lia|].
  apply (chunking_content_addressed sample_chunker sample_doc "guide.md").
  simpl. lia.
Defined.

(** The groups of [chunks_by_section], put end to end, are the chunks of
    the document. *)
Lemma section_groups_concat (self : SectionChunker) (doc source : string)
    (secs : list (string * string)) (cs : list Chunk) (k : nat) :
  for_each (chunk_section self doc source) secs (cs, k)
  = (groups ← section_groups self doc source secs k;
     Ok (cs ++ concat groups, (k + length (concat groups))%nat)).
Proof.
  revert cs k. induction secs as [|sec secs IH]; intros cs k.
  - simpl. rewrite app_nil_r. do 2 f_equal. lia.
  - simpl. unfold chunk_section.
    destruct (_char_windows sec.2 (size self) (over self)) as [ws|e]; [|done].
    simpl. rewrite !emit_windows. simpl. rewrite IH.
    destruct (section_groups _ _ _ _ _) as [groups|e]; [|done].
    simpl. rewrite <- app_assoc, length_app, numbered_length.
    do 2 f_equal. lia.
Qed.

Lemma chunks_by_section_concat (self : SectionChunker) (md source : string) :
  chunk_markdown_text self md source
  = (groups ← chunks_by_section self md source; Ok (concat groups)).
Proof.
  unfold chunk_markdown_text, chunks_by_section.
  rewrite section_groups_concat.
  by destruct (section_groups _ _ _ _ _).
Qed.

(** C4, as stated, fails: in a document with two sections of the same path,
    the first chunk of each section has the same doc id, the same section
    path and the same position within its own section, and the two ids
    differ. *)
Lemma chunk_id_per_section_counterexample :
  ¬ (∀ (self : SectionChunker) (md source : string)
       (groups : list (list Chunk)) (s1 s2 : nat) (g1 g2 : list Chunk)
       (k : nat) (c1 c2 : Chunk),
       chunks_by_section self md source = Ok groups →
       groups !! s1 = Some g1 → groups !! s2 = Some g2 →
       g1 !! k = Some c1 → g2 !! k = Some c2 →
       doc_id c1 = doc_id c2 → section_path c1 = section_path c2 →
       chunk_id c1 = chunk_id c2).
Proof.
  intros H.
  destruct (chunks_by_section sample_chunker twin_sections_doc "a.md")
    as [groups|e] eqn:Hrun; vm_compute in Hrun; [|discriminate Hrun].
  injection Hrun as <-.
  specialize (H sample_chunker twin_sections_doc "a.md"%string _ 0%nat 1%nat _ _ 0%nat _ _
                ltac:(vm_compute; reflexivity) eq_refl eq_refl eq_refl eq_refl
                eq_refl eq_refl).
  vm_compute in H. discriminate H.
Qed.

(** C4, amended. A chunk's id is a function of (doc id, section path,
    position in the chunk sequence of the whole document): two chunks at
    the same position of two chunk sequences that agree on doc id and on
    section path have the same id. *)
Theorem chunk_id_function_of_position
    (self1 self2 : SectionChunker) (md1 source1 md2 source2 : string)
    (cs1 cs2 : list Chunk) (i : nat) (c1 c2 : Chunk) :
  chunk_markdown_text self1 md1 source1 = Ok cs1 →
  chunk_markdown_text self2 md2 source2 = Ok cs2 →
  cs1 !! i = Some c1 → cs2 !! i = Some c2 →
  doc_id c1 = doc_id c2 → section_path c1 = section_path c2 →
  chunk_id c1 = chunk_id c2.
Proof.
  intros Hrun1 Hrun2 Hc1 Hc2 Hdoc Hpath.
  rewrite (chunk_id_by_position _ _ _ _ _ _ Hrun1 Hc1).
  rewrite (chunk_id_by_position _ _ _ _ _ _ Hrun2 Hc2).
  by rewrite Hdoc, Hpath.
Qed.


Lemma chunk_id_function_of_position_witness :
  ∃ cs1 cs2 c1 c2,
    chunk_markdown_text sample_chunker sample_doc "guide.md" = Ok cs1 ∧
    chunk_markdown_text sample_chunker sample_doc_revised "other.md" = Ok cs2 ∧
    cs1 !! 1%nat = Some c1 ∧ cs2 !! 1%nat = Some c2 ∧
    doc_id c1 = doc_id c2 ∧ section_path c1 = section_path c2 ∧
    text c1 ≠ text c2 ∧
    chunk_id c1 = chunk_id c2.
Proof.
  destruct (chunk_markdown_text sample_chunker sample_doc "guide.md")
    as [cs1|e1] eqn:Hrun1; vm_compute in Hrun1; [|discriminate Hrun1].
  destruct (chunk_markdown_text sample_chunker sample_doc_revised "other.md")
    as [cs2|e2] eqn:Hrun2; vm_compute in Hrun2; [|discriminate Hrun2].
  injection Hrun1 as <-. injection Hrun2 as <-.
  eexists _, _, _, _.
  split; [reflexivity|]. split; [reflexivity|].
  split; [reflexivity|]. split; [reflexivity|].
  split; [reflexivity|]. split; [reflexivity|].
  split; [discriminate|].
  eapply (chunk_id_function_of_position sample_chunker sample_chunker
            sample_doc "guide.md" sample_doc_revised "other.md" _ _ 1%nat);
    vm_compute; reflexivity.
Defined.

End ChunkerLaws.

(** ** The extraction dispatch loop *)
Section Dispatch.
Import Json Chunker ExtractGraph IngestPipeline PipelineSpec.

Variable json_loads : string → option json.
Variable complete : nat → string → res string.

#[local] Abbreviation future_result := (future_result json_loads complete).
#[local] Abbreviation collect_one := (collect_one json_loads complete).
#[local] Abbreviation dispatch := (dispatch json_loads complete).

Lemma collect_one_length (chunk_batch : list Chunk) (kg_list : list (option KG)) (idx : nat) :
  length (collect_one chunk_batch kg_list idx) = length kg_list.
Proof.
  unfold IngestPipeline.collect_one.
  destruct (chunk_batch !! idx) as [chunk|]; [|done].
  destruct (future_result idx chunk); by rewrite length_insert.
Qed.

(** After the loop, a slot whose future was yielded holds the result of that
    future, whatever the order; the other slots are untouched. *)
Lemma collect_slots (chunk_batch : list Chunk) (completion : list nat)
    (kg_list : list (option KG)) (i : nat) (chunk : Chunk) :
  length kg_list = length chunk_batch →
  chunk_batch !! i = Some chunk →
  fold_left (collect_one chunk_batch) completion kg_list !! i
  = if decide (i ∈ completion)
    then Some (Some (degraded (future_result i chunk)))
    else kg_list !! i.
Proof.
  intros Hlen Hi. revert kg_list Hlen.
  induction completion as [|idx rest IH]; intros kg_list Hlen.
  - simpl. destruct (decide (i ∈ [])) as [Hin|_]; [|done].
    by apply elem_of_nil in Hin.
  - simpl. rewrite IH by (by rewrite collect_one_length).
    destruct (decide (i ∈ rest)) as [Hin|Hout].
    + destruct (decide (i ∈ idx :: rest)) as [_|Hout]; [done|].
      destruct Hout. by apply list_elem_of_further.
    + destruct (decide (i = idx)) as [->|Hne].
      * destruct (decide (idx ∈ idx :: rest)) as [_|Hout'];
          [|destruct Hout'; apply list_elem_of_here].
        unfold IngestPipeline.collect_one. rewrite Hi.
        apply lookup_lt_Some in Hi.
        destruct (future_result idx chunk); simpl;
          by rewrite list_lookup_insert_eq by lia.
      * destruct (decide (i ∈ idx :: rest)) as [Hin|_].
        { apply elem_of_cons in Hin. tauto. }
        unfold IngestPipeline.collect_one.
        destruct (chunk_batch !! idx) as [chunk'|]; [|done].
        destruct (future_result idx chunk');
          by rewrite list_lookup_insert_ne by done.
Qed.

Lemma collect_length (chunk_batch : list Chunk) (completion : list nat)
    (kg_list : list (option KG)) :
  length (fold_left (collect_one chunk_batch) completion kg_list) = length kg_list.
Proof.
  revert kg_list. induction completion as [|idx rest IH]; intros kg_list; [done|].
  simpl. by rewrite IH, collect_one_length.
Qed.

(** C1. Whatever the order in which the extraction calls of a batch
    complete, the result array has the length of the batch, and slot [i]
    holds the result of the call made for chunk [i], or the empty extraction
    with no entities and no relations when that call raised; a call that
    raises changes no other slot. *)
Theorem dispatch_aligned (chunk_batch : list Chunk) (completion : list nat) :
  completion ≡ₚ seq 0 (length chunk_batch) →
  length (dispatch chunk_batch completion) = length chunk_batch ∧
  (∀ i chunk, chunk_batch !! i = Some chunk →
     dispatch chunk_batch completion !! i
     = Some (Some (degraded (future_result i chunk)))) ∧
  (∀ i chunk e, chunk_batch !! i = Some chunk →
     future_result i chunk = Raise e →
     dispatch chunk_batch completion !! i
     = Some (Some {| entities := []; relations := [] |}) ∧
     ∀ j chunk' kg, j ≠ i → chunk_batch !! j = Some chunk' →
       future_result j chunk' = Ok kg →
       dispatch chunk_batch completion !! j = Some (Some kg)).
Proof.
  intros Hperm.
  assert (∀ i chunk, chunk_batch !! i = Some chunk →
            dispatch chunk_batch completion !! i
            = Some (Some (degraded (future_result i chunk)))) as Hslot.
  { intros i chunk Hi. unfold IngestPipeline.dispatch.
    rewrite (collect_slots _ _ _ i chunk) by (by rewrite ?length_replicate).
    destruct (decide (i ∈ completion)) as [_|Hout]; [done|].
    destruct Hout. rewrite Hperm. apply elem_of_seq.
    apply lookup_lt_Some in Hi. lia. }
  split; [|split].
  - unfold IngestPipeline.dispatch. by rewrite collect_length, length_replicate.
  - exact Hslot.
  - intros i chunk e Hi Hraise. split.
    + by rewrite (Hslot i chunk Hi), Hraise.
    + intros j chunk' kg _ Hj Hok. by rewrite (Hslot j chunk' Hj), Hok.
Qed.

End Dispatch.

(** ** The store-write phase *)
Create HintDb store_log.

Section StoreWrites.
Import Json Chunker ExtractGraph CreateGraph CreateIndex IngestPipeline PipelineSpec.

Context {vector : Type}.
Variable embed : string → vector.
Variable json_dumps : json → string.
Variable store_fails : nat → bool.

#[local] Abbreviation execute_write := (execute_write vector json_dumps store_fails).
#[local] Abbreviation index_chunk := (index_chunk vector embed store_fails).
#[local] Abbreviation write_chunk := (write_chunk vector embed json_dumps store_fails).
#[local] Abbreviation write_pairs := (write_pairs vector embed json_dumps store_fails).
#[local] Abbreviation write_batch := (write_batch vector embed json_dumps store_fails).

Lemma collect_ids_acc (ents acc ids : list json) :
  for_each (fun ids e =>
              id ← get e "id" JNull;
              if truthy id then (id' ← get e "id" JNull; Ok (ids ++ [id']))
              else Ok ids) ents acc = Ok ids →
  ids = acc ++ entity_ids_of ents.
Proof.
  revert acc. induction ents as [|e ents IH]; intros acc; simpl.
  - intros [= <-]. by rewrite app_nil_r.
  - destruct e as [| | | | |l|items]; try done. simpl.
    unfold entity_ids_of. simpl.
    destruct (dict_lookup "id" items) as [v|]; simpl.
    + destruct (truthy v); simpl.
      * intros H. apply IH in H. by rewrite <- app_assoc in H.
      * apply IH.
    + apply IH.
Qed.

Lemma collect_ids_spec (ents ids : list json) :
  collect_ids ents = Ok ids → ids = entity_ids_of ents.
Proof. apply (collect_ids_acc ents []). Qed.

(** Every store call extends the log by exactly that call. *)
Lemma execute_write_log (c : graph_call) (log log' : list (store_call vector)) (r : res unit) :
  execute_write c log = (r, log') → log' = log ++ [ExecuteWrite c].
Proof.
  unfold IngestPipeline.execute_write.
  destruct (store_fails (length log)); by intros [= _ <-].
Qed.

Lemma index_chunk_log (chunk : Chunk) (ids : list json)
    (log log' : list (store_call vector)) (r : res unit) :
  index_chunk chunk ids log = (r, log') →
  log' = log ++ [IndexPost (index_request embed chunk ids).1
                           (index_request embed chunk ids).2].
Proof.
  unfold IngestPipeline.index_chunk. simpl.
  destruct (store_fails (length log)); by intros [= _ <-].
Qed.

(** A chunk whose writes all return causes exactly the expected calls. *)
Lemma write_chunk_ok (chunk : Chunk) (slot : option KG)
    (log log' : list (store_call vector)) :
  write_chunk chunk slot log = (Ok (), log') →
  log' = log ++ expected_calls embed (chunk, slot).
Proof.
  unfold IngestPipeline.write_chunk, expected_calls, mbind, store_bind, sm_bind,
    when_nonempty, sm_ret, sm_lift.
  simpl. set (kg := default empty_kg slot).
  destruct (entities kg) as [|e ents] eqn:Hents; simpl.
  - destruct (relations kg) as [|r rels] eqn:Hrels; simpl.
    + intros H. by apply index_chunk_log in H.
    + destruct (execute_write _ log) as [[[]|err] log1] eqn:Hw; [|done].
      apply execute_write_log in Hw as ->.
      intros H. apply index_chunk_log in H as ->. by rewrite <- app_assoc.
  - destruct (execute_write _ log) as [[[]|err] log1] eqn:Hw; [|done].
    apply execute_write_log in Hw as ->.
    destruct (relations kg) as [|r rels] eqn:Hrels; simpl.
    + destruct (collect_ids (e :: ents)) as [ids|err] eqn:Hids; [|done].
      apply collect_ids_spec in Hids as ->.
      intros H. apply index_chunk_log in H as ->. by rewrite <- app_assoc.
    + destruct (execute_write _ (log ++ _)) as [[[]|err] log2] eqn:Hw2; [|done].
      apply execute_write_log in Hw2 as ->.
      destruct (collect_ids (e :: ents)) as [ids|err] eqn:Hids; [|done].
      apply collect_ids_spec in Hids as ->.
      intros H. apply index_chunk_log in H as ->. by rewrite <- !app_assoc.
Qed.

Lemma write_pairs_ok (pairs : list (Chunk * option KG))
    (log log' : list (store_call vector)) :
  write_pairs pairs log = (Ok (), log') →
  log' = log ++ concat (map (expected_calls embed) pairs).
Proof.
  revert log. induction pairs as [|[chunk slot] pairs IH]; intros log; simpl.
  - intros [= <-]. by rewrite app_nil_r.
  - unfold mbind, store_bind, sm_bind.
    destruct (write_chunk chunk slot log) as [[[]|err] log1] eqn:Hw; [|done].
    apply write_chunk_ok in Hw as ->.
    intros H. apply IH in H as ->. by rewrite <- app_assoc.
Qed.

Lemma for_each_ok {S A : Type} (body : S → A → res S) (P : A → Prop) (xs : list A) (s : S) :
  (∀ s x, P x → ∃ s', body s x = Ok s') → Forall P xs → ∃ s', for_each body xs s = Ok s'.
Proof.
  intros Hbody Hxs. revert s. induction Hxs as [|x xs Hx Hxs IH]; intros s.
  - by eexists.
  - simpl. destruct (Hbody s x Hx) as [s' ->]. simpl. apply IH.
Qed.

Lemma tx_body_ok (c : graph_call) :
  match c with
  | CallUpsertEntities ents _ _ _ => Forall is_dict ents
  | CallUpsertRelations rels _ => Forall is_dict rels
  end →
  tx_body json_dumps c = Ok ().
Proof.
  destruct c as [ents sf sp di|rels sf]; intros Hwf; simpl.
  - destruct (for_each_ok
                (fun runs ent => r ← entity_run json_dumps sf sp di ent; Ok (runs ++ [r]))
                is_dict ents []) as [runs Hruns]; [|done|].
    + intros runs e [items ->]. by eexists.
    + unfold upsert_entities. by rewrite Hruns.
  - destruct (for_each_ok
                (fun runs rel => r ← relation_run sf rel; Ok (runs ++ [r]))
                is_dict rels []) as [runs Hruns]; [|done|].
    + intros runs e [items ->]. by eexists.
    + unfold upsert_relations. by rewrite Hruns.
Qed.

Lemma collect_ids_ok (ents : list json) :
  Forall is_dict ents → ∃ ids, collect_ids ents = Ok ids.
Proof.
  intros Hwf. unfold collect_ids.
  apply (for_each_ok _ is_dict); [|done].
  intros ids e [items ->]. simpl.
  destruct (truthy _); by eexists.
Qed.

Lemma write_chunk_returns (chunk : Chunk) (slot : option KG)
    (log : list (store_call vector)) :
  (∀ k, store_fails k = false) → well_formed slot →
  ∃ log', write_chunk chunk slot log = (Ok (), log').
Proof.
  intros Hstore [Hents Hrels].
  unfold IngestPipeline.write_chunk, mbind, store_bind, sm_bind, when_nonempty,
    sm_ret, sm_lift.
  set (kg := default empty_kg slot) in *.
  assert (∀ c l, match c with
                 | CallUpsertEntities ents _ _ _ => Forall is_dict ents
                 | CallUpsertRelations rels _ => Forall is_dict rels
                 end → execute_write c l = (Ok (), l ++ [ExecuteWrite c])) as Hexec.
  { intros c l Hc. unfold IngestPipeline.execute_write.
    by rewrite Hstore, tx_body_ok. }
  destruct (collect_ids_ok _ Hents) as [ids Hids].
  assert (∀ l, ∃ l', index_chunk chunk ids l = (Ok (), l')) as Hidx.
  { intros l. unfold IngestPipeline.index_chunk. simpl. rewrite Hstore. by eexists. }
  destruct (entities kg) as [|e ents] eqn:He;
    destruct (relations kg) as [|r rels] eqn:Hr;
    rewrite ?Hexec by done; rewrite Hids; apply Hidx.
Qed.

Lemma write_pairs_returns (pairs : list (Chunk * option KG))
    (log : list (store_call vector)) :
  (∀ k, store_fails k = false) → Forall (fun p => well_formed p.2) pairs →
  ∃ log', write_pairs pairs log = (Ok (), log').
Proof.
  intros Hstore Hwf. revert log.
  induction Hwf as [|[chunk slot] pairs Hp Hwf IH]; intros log; simpl.
  - by eexists.
  - unfold mbind, store_bind, sm_bind.
    destruct (write_chunk_returns chunk slot log Hstore Hp) as [log1 ->].
    apply IH.
Qed.

(** C5. The store calls of a batch whose write phase returns are, chunk by
    chunk in batch order: the entity upsert when the chunk's entity list is
    not empty, then the relation upsert when its relation list is not empty,
    then one index record keyed by the chunk id whose entity ids are the ids
    of the chunk's entities. The phase returns whenever no store call is
    rejected and the extracted entities and relations are objects. A chunk
    with an empty extraction, or none, causes the index record alone, with
    no entity ids. *)
Theorem write_batch_order (chunk_batch : list Chunk) (kg_list : list (option KG))
    (log : list (store_call vector)) :
  let expected := concat (map (expected_calls embed) (zip chunk_batch kg_list)) in
  (∀ log', write_batch chunk_batch kg_list log = (Ok (), log') →
           log' = log ++ expected) ∧
  ((∀ k, store_fails k = false) → Forall well_formed kg_list →
   write_batch chunk_batch kg_list log = (Ok (), log ++ expected)) ∧
  (∀ chunk slot, slot = None ∨ slot = Some empty_kg →
     ∃ doc, expected_calls embed (chunk, slot) = [IndexPost (chunk_id chunk) doc] ∧
            ix_entity_ids doc = [] ∧ ix_chunk_id doc = chunk_id chunk).
Proof.
  intros expected. split; [|split].
  - intros log' Hrun. by apply write_pairs_ok.
  - intros Hstore Hwf.
    destruct (write_pairs_returns (zip chunk_batch kg_list) log Hstore) as [log' Hrun].
    { apply Forall_forall. intros [chunk slot] Hin. simpl.
      rewrite Forall_forall in Hwf. apply Hwf.
      apply elem_of_zip_r in Hin. done. }
    unfold IngestPipeline.write_batch. rewrite Hrun.
    by rewrite (write_pairs_ok _ _ _ Hrun).
  - intros chunk slot [-> | ->]; by eexists.
Qed.

(** *** The entity upsert *)

Lemma entity_run_dict (sf sp di : string) (e : json) (r : entity_merge) :
  entity_run json_dumps sf sp di e = Ok r →
  ∃ items, e = JDict items ∧ em_id r = default JNull (dict_lookup "id" items).
Proof.
  destruct e as [| | | | |l|items]; try done.
  unfold entity_run. simpl. intros [= <-]. by exists items.
Qed.

Lemma upsert_entities_acc (sf sp di : string) (ents : list json)
    (acc runs : list entity_merge) :
  for_each (fun runs ent => r ← entity_run json_dumps sf sp di ent; Ok (runs ++ [r]))
           ents acc = Ok runs →
  ∃ new, runs = acc ++ new ∧
         Forall2 (fun e r => entity_run json_dumps sf sp di e = Ok r) ents new.
Proof.
  revert acc. induction ents as [|e ents IH]; intros acc; simpl.
  - intros [= <-]. exists []. by rewrite app_nil_r.
  - destruct (entity_run json_dumps sf sp di e) as [r|err] eqn:Hr; [|done].
    simpl. intros H. apply IH in H as (new & -> & Hnew).
    exists (r :: new). rewrite <- app_assoc. split; [done|by constructor].
Qed.

(** [upsert_entities] runs one statement per entity, whatever its id. *)
Lemma upsert_entities_runs (sf sp di : string) (ents : list json)
    (runs : list entity_merge) :
  upsert_entities json_dumps ents sf sp di = Ok runs →
  Forall2 (fun e r => entity_run json_dumps sf sp di e = Ok r) ents runs.
Proof.
  intros H. by apply upsert_entities_acc in H as (new & -> & Hnew).
Qed.

Lemma write_chunk_upserted (chunk : Chunk) (slot : option KG)
    (log log' : list (store_call vector)) :
  write_chunk chunk slot log = (Ok (), log') →
  ∃ runs, upsert_entities json_dumps (entities (default empty_kg slot))
            (source_file chunk) (section_path chunk) (doc_id chunk) = Ok runs.
Proof.
  unfold IngestPipeline.write_chunk, mbind, store_bind, sm_bind, when_nonempty, sm_ret.
  set (kg := default empty_kg slot).
  destruct (entities kg) as [|e ents] eqn:Hents; simpl; [by eexists|].
  unfold IngestPipeline.execute_write at 1.
  destruct (store_fails (length log)); [done|]. simpl.
  destruct (upsert_entities _ _ _ _ _) as [runs|err]; [by eexists|done].
Qed.

(** C10. In graph mode the entity ids of the index record written for a
    chunk are exactly the "id" values of the chunk's entities that are
    present and not empty, in order. An entity whose "id" is absent, [None]
    or the empty string is part of the list handed to the entity upsert,
    which runs its statement for it like for any other entity (with [None]
    or the empty string as id), and it contributes no id to the record. *)
Theorem index_entity_ids (chunk : Chunk) (slot : option KG)
    (log log' : list (store_call vector)) :
  write_chunk chunk slot log = (Ok (), log') →
  let ents := entities (default empty_kg slot) in
  (∃ doc, last log' = Some (IndexPost (chunk_id chunk) doc) ∧
          ix_entity_ids doc = omap present_id ents) ∧
  (ents ≠ [] →
   ExecuteWrite (CallUpsertEntities ents (source_file chunk) (section_path chunk)
                                    (doc_id chunk)) ∈ log') ∧
  (∃ runs,
     upsert_entities json_dumps ents (source_file chunk) (section_path chunk)
                     (doc_id chunk) = Ok runs ∧
     ∀ j e, ents !! j = Some e →
       ∃ items r, e = JDict items ∧ runs !! j = Some r ∧
                  em_id r = default JNull (dict_lookup "id" items)) ∧
  (∀ items,
     dict_lookup "id" items = None ∨ dict_lookup "id" items = Some JNull ∨
     dict_lookup "id" items = Some (JStr EmptyString) →
     present_id (JDict items) = None) ∧
  (∀ items s, s ≠ EmptyString → dict_lookup "id" items = Some (JStr s) →
     present_id (JDict items) = Some (JStr s)).
Proof.
  intros Hrun ents.
  pose proof (write_chunk_ok _ _ _ _ Hrun) as Hlog.
  split; [|split; [|split; [|split]]].
  - rewrite Hlog. unfold expected_calls. rewrite !app_assoc, last_snoc. by eexists.
  - intros Hne. rewrite Hlog. unfold expected_calls. simpl. fold ents.
    destruct ents as [|e ents']; [done|].
    apply elem_of_app. right. apply list_elem_of_here.
  - destruct (write_chunk_upserted _ _ _ _ Hrun) as [runs Hruns].
    exists runs. split; [exact Hruns|].
    apply upsert_entities_runs in Hruns.
    intros j e Hj.
    destruct (Forall2_lookup_l _ _ _ _ _ Hruns Hj) as (r & Hr & Hrun_e).
    apply entity_run_dict in Hrun_e as (items & -> & Hid).
    by exists items, r.
  - intros items H. unfold present_id. by destruct H as [-> | [-> | ->]].
  - intros items s Hs H. unfold present_id. rewrite H. by destruct s.
Qed.

(** *** Store failures *)

Lemma write_pairs_app (xs ys : list (Chunk * option KG))
    (log : list (store_call vector)) :
  write_pairs (xs ++ ys) log
  = match write_pairs xs log with
    | (Ok _, log1) => write_pairs ys log1
    | (Raise e, log1) => (Raise e, log1)
    end.
Proof.
  revert log. induction xs as [|[chunk slot] xs IH]; intros log; simpl; [done|].
  unfold mbind, store_bind, sm_bind.
  destruct (write_chunk chunk slot log) as [[[]|err] log1]; [|done].
  apply IH.
Qed.

(** Every computation of the write phase only adds calls to the log. *)
Lemma extends_ret {A : Type} (a : A) : extends (sm_ret vector a).
Proof. intros log r log' [= _ <-]. exists []. by rewrite app_nil_r. Qed.

Lemma extends_lift {A : Type} (r : res A) : extends (sm_lift vector r).
Proof. intros log r' log' [= _ <-]. exists []. by rewrite app_nil_r. Qed.

Lemma extends_bind {A B : Type} (m : store_m vector A) (f : A → store_m vector B) :
  extends m → (∀ a, extends (f a)) → extends (m ≫= f).
Proof.
  intros Hm Hf log r log'. unfold mbind, store_bind, sm_bind.
  destruct (m log) as [[a|e] log1] eqn:Hrun; apply Hm in Hrun as [c1 ->].
  - intros H. apply Hf in H as [c2 ->]. exists (c1 ++ c2). by rewrite app_assoc.
  - intros [= _ <-]. by exists c1.
Qed.

Lemma extends_when_nonempty {A : Type} (xs : list A) (m : store_m vector unit) :
  extends m → extends (when_nonempty vector xs m).
Proof. destruct xs; [|done]. intros _. apply extends_ret. Qed.

Lemma extends_execute_write (c : graph_call) : extends (execute_write c).
Proof.
  intros log r log' H. apply execute_write_log in H. by eexists.
Qed.

Lemma extends_index_chunk (chunk : Chunk) (ids : list json) :
  extends (index_chunk chunk ids).
Proof.
  intros log r log' H. apply index_chunk_log in H. by eexists.
Qed.

#[local] Hint Resolve extends_ret extends_lift extends_bind extends_when_nonempty
  extends_execute_write extends_index_chunk : store_log.

Lemma extends_write_chunk (chunk : Chunk) (slot : option KG) :
  extends (write_chunk chunk slot).
Proof. unfold IngestPipeline.write_chunk. auto 10 with store_log. Qed.

Lemma extends_write_pairs (pairs : list (Chunk * option KG)) :
  extends (write_pairs pairs).
Proof.
  induction pairs as [|[chunk slot] pairs IH]; simpl.
  - apply extends_ret.
  - apply extends_bind; [apply extends_write_chunk | done].
Qed.

(** C6, amended. A store write error is surfaced to the caller and ends the
    write phase of the batch: when the writes of the first chunks of a batch
    end in an exception, the whole batch ends in that exception with the
    same calls made, so the calls made before the failure stand and no call
    is made for any later chunk. *)
Theorem store_error_aborts_batch
    (done_chunks rest_chunks : list Chunk) (done_kgs rest_kgs : list (option KG))
    (log log' : list (store_call vector)) (e : exn) :
  length done_chunks = length done_kgs →
  write_batch done_chunks done_kgs log = (Raise e, log') →
  write_batch (done_chunks ++ rest_chunks) (done_kgs ++ rest_kgs) log = (Raise e, log') ∧
  ∃ calls, log' = log ++ calls.
Proof.
  intros Hlen Hrun. split.
  - unfold IngestPipeline.write_batch in *.
    rewrite zip_with_app by done. rewrite write_pairs_app.
    by rewrite Hrun.
  - exact (extends_write_pairs _ _ _ _ Hrun).
Qed.

End StoreWrites.

(** ** Parsing the reply of the extractor *)
Section Parsing.
Import PyStr Json ExtractGraph PipelineSpec.

Variable json_loads : string → option json.


Lemma kg_of_parsed_not_dict (v : json) :
  (∀ items, v ≠ JDict items) → kg_of_parsed v = Raise AttributeError.
Proof. intros Hv. destruct v; try done. by destruct (Hv items). Qed.

(** The three stages, for replies whose parsed value is an object: the
    strict parse, then the parse of the block between the first opening and
    the last closing brace, then the empty extraction. *)
Lemma parse_content_stages (raw : string) :
  let content := strip raw in
  (∀ items, json_loads content = Some (JDict items) →
     parse_content json_loads raw = kg_of_parsed (JDict items)) ∧
  (∀ items, json_loads content = None →
     json_loads (_extract_json_block content) = Some (JDict items) →
     parse_content json_loads raw = kg_of_parsed (JDict items)) ∧
  (json_loads content = None → json_loads (_extract_json_block content) = None →
     parse_content json_loads raw = Ok empty_kg).
Proof.
  intros content. unfold parse_content. fold content.
  split; [|split].
  - by intros items ->.
  - by intros items -> ->.
  - by intros -> ->.
Qed.

(** A reply whose strict parse gives a value that is not an object makes
    the function raise: the value has no [get]. *)
Lemma parse_content_not_dict (raw : string) (v : json) :
  json_loads (strip raw) = Some v → (∀ items, v ≠ JDict items) →
  parse_content json_loads raw = Raise AttributeError.
Proof.
  intros Hloads Hv. unfold parse_content. rewrite Hloads.
  by apply kg_of_parsed_not_dict.
Qed.

(** C7, at the failing input. When the reply is the JSON text of a list,
    the strict parse succeeds with a value that is not an object and the
    function raises [AttributeError] instead of returning a dict with two
    lists. *)
Theorem parse_content_list_reply :
  json_loads "[]" = Some (JList []) →
  extract_kg_from_chunk json_loads (Ok "[]"%string) = Raise AttributeError.
Proof.
  intros Hloads. unfold extract_kg_from_chunk. simpl.
  unfold parse_content.
  change (strip "[]") with "[]"%string. by rewrite Hloads.
Qed.

End Parsing.

Section ParsingSamples.
Import PyStr Json ExtractGraph PipelineSpec.

Lemma parse_content_list_reply_witness :
  sample_json_loads "[]" = Some (JList []) ∧
  extract_kg_from_chunk sample_json_loads (Ok "[]"%string) = Raise AttributeError.
Proof.
  split; [reflexivity|].
  apply (parse_content_list_reply sample_json_loads). reflexivity.
Defined.

Example extract_json_block_wrapped : _extract_json_block reply_wrapped = reply_object.
Proof. vm_compute. reflexivity. Qed.

Example parse_wrapped_reply :
  extract_kg_from_chunk sample_json_loads (Ok reply_wrapped)
  = Ok {| entities := [JDict [("id", JStr "http.client")]]%string; relations := [] |}.
Proof. vm_compute. reflexivity. Qed.

End ParsingSamples.

(** ** The pipeline on sample batches *)
Section PipelineSamples.
Import PyStr Json Chunker ExtractGraph CreateGraph CreateIndex IngestPipeline PipelineSpec.

Lemma dispatch_aligned_witness :
  [2; 0; 1]%nat ≡ₚ seq 0 (length [chunk_a; chunk_b; chunk_c]) ∧
  length (dispatch sample_json_loads sample_complete [chunk_a; chunk_b; chunk_c] [2; 0; 1]%nat)
  = length [chunk_a; chunk_b; chunk_c] ∧
  (∀ i chunk, [chunk_a; chunk_b; chunk_c] !! i = Some chunk →
     dispatch sample_json_loads sample_complete [chunk_a; chunk_b; chunk_c] [2; 0; 1]%nat !! i
     = Some (Some (degraded (future_result sample_json_loads sample_complete i chunk)))) ∧
  (∀ i chunk e, [chunk_a; chunk_b; chunk_c] !! i = Some chunk →
     future_result sample_json_loads sample_complete i chunk = Raise e →
     dispatch sample_json_loads sample_complete [chunk_a; chunk_b; chunk_c] [2; 0; 1]%nat !! i
     = Some (Some {| entities := []; relations := [] |}) ∧
     ∀ j chunk' kg, j ≠ i → [chunk_a; chunk_b; chunk_c] !! j = Some chunk' →
       future_result sample_json_loads sample_complete j chunk' = Ok kg →
       dispatch sample_json_loads sample_complete [chunk_a; chunk_b; chunk_c] [2; 0; 1]%nat !! j
       = Some (Some kg)).
Proof.
  assert ([2; 0; 1]%nat ≡ₚ seq 0 (length [chunk_a; chunk_b; chunk_c])) as Hperm.
  { apply (bool_decide_unpack _). vm_compute. exact I. }
  split; [exact Hperm|].
  exact (dispatch_aligned sample_json_loads sample_complete _ _ Hperm).
Defined.

Example dispatch_sample :
  dispatch sample_json_loads sample_complete [chunk_a; chunk_b; chunk_c] [2; 0; 1]%nat
  = [Some {| entities := [JDict [("id", JStr "http.client")]]%string; relations := [] |};
     Some empty_kg; Some empty_kg].
Proof. vm_compute. reflexivity. Qed.

Lemma write_batch_order_witness :
  ∃ log',
    write_batch (list Z) sample_embed sample_json_dumps store_never_fails
                [chunk_a; chunk_b] [Some kg_users; None] [] = (Ok (), log') ∧
    log' = concat (map (expected_calls sample_embed)
                       (zip [chunk_a; chunk_b] [Some kg_users; None])) ∧
    length log' = 4%nat.
Proof.
  destruct (write_batch_order sample_embed sample_json_dumps store_never_fails
              [chunk_a; chunk_b] [Some kg_users; None] []) as (Hlog & Hret & _).
  eexists. split; [vm_compute; reflexivity|].
  split; [|reflexivity].
  apply (Hlog _). vm_compute. reflexivity.
Defined.

Lemma index_entity_ids_witness :
  ∃ log' doc,
    write_chunk (list Z) sample_embed sample_json_dumps store_never_fails
                chunk_a (Some kg_users) [] = (Ok (), log') ∧
    last log' = Some (IndexPost (chunk_id chunk_a) doc) ∧
    ix_entity_ids doc = [JStr "users.create"] ∧
    length (entities kg_users) = 4%nat.
Proof.
  destruct (write_chunk (list Z) sample_embed sample_json_dumps store_never_fails
              chunk_a (Some kg_users) []) as [r log'] eqn:Hrun.
  vm_compute in Hrun. injection Hrun as <- <-.
  destruct (index_entity_ids sample_embed sample_json_dumps store_never_fails
              chunk_a (Some kg_users) [] _ ltac:(vm_compute; reflexivity))
    as ((doc & Hlast & Hids) & _).
  eexists _, doc. split; [reflexivity|]. split; [exact Hlast|].
  split; [exact Hids|reflexivity].
Defined.

(** C6, as stated, fails: when the index write of the first chunk of a
    batch of two is rejected, the write phase ends in the error and no call
    at all is made for the second chunk. *)
Lemma later_chunks_written_counterexample :
  ¬ (∀ (vector : Type) (embed : string → vector) (json_dumps : json → string)
       (store_fails : nat → bool)
       (done_chunks rest_chunks : list Chunk) (done_kgs rest_kgs : list (option KG))
       (log1 log' : list (store_call vector)) (e : exn) (r : res unit),
       length done_chunks = length done_kgs →
       length rest_chunks = length rest_kgs →
       write_batch vector embed json_dumps store_fails done_chunks done_kgs []
       = (Raise e, log1) →
       write_batch vector embed json_dumps store_fails
                   (done_chunks ++ rest_chunks) (done_kgs ++ rest_kgs) [] = (r, log') →
       ∀ chunk, chunk ∈ rest_chunks → ∃ doc, IndexPost (chunk_id chunk) doc ∈ log').
Proof.
  intros H.
  destruct (H (list Z) sample_embed sample_json_dumps store_fails_first
              [chunk_a] [chunk_b] [None] [None] _ _ StoreError _
              eq_refl eq_refl
              ltac:(vm_compute; reflexivity) ltac:(vm_compute; reflexivity)
              chunk_b ltac:(apply list_elem_of_here)) as [doc Hin].
  apply list_elem_of_singleton in Hin. discriminate Hin.
Qed.

Lemma store_error_aborts_batch_witness :
  ∃ log',
    length [chunk_a] = length [@None KG] ∧
    write_batch (list Z) sample_embed sample_json_dumps store_fails_first
                [chunk_a] [None] [] = (Raise StoreError, log') ∧
    write_batch (list Z) sample_embed sample_json_dumps store_fails_first
                ([chunk_a] ++ [chunk_b; chunk_c]) ([None] ++ [Some kg_users; None]) []
    = (Raise StoreError, log') ∧
    ∃ calls, log' = [] ++ calls.
Proof.
  eexists. split; [reflexivity|].
  assert (write_batch (list Z) sample_embed sample_json_dumps store_fails_first
                      [chunk_a] [None] []
          = (Raise StoreError,
             [IndexPost (chunk_id chunk_a)
                        (index_request sample_embed chunk_a []).2])) as Hrun.
  { vm_compute. reflexivity. }
  split; [exact Hrun|].
  exact (store_error_aborts_batch sample_embed sample_json_dumps store_fails_first
           [chunk_a] [chunk_b; chunk_c] [None] [Some kg_users; None] [] _ StoreError
           eq_refl Hrun).
Defined.

End PipelineSamples.

(** * Further properties *)

(** ** Facts about the string primitives *)
Section StringFacts.
Import PyStr.

Lemma lstrip_length (s : string) : (String.length (lstrip s) <= String.length s)%nat.
Proof.
  induction s as [|c r IH]; simpl; [done|].
  destruct (isspace c); simpl; lia.
Qed.

Lemma rstrip_length (s : string) : (String.length (rstrip s) <= String.length s)%nat.
Proof.
  induction s as [|c r IH]; simpl; [done|].
  destruct (rstrip r) as [|d r'].
  - destruct (isspace c); simpl; lia.
  - simpl in *. lia.
Qed.

Lemma strip_length (s : string) : (String.length (strip s) <= String.length s)%nat.
Proof.
  unfold strip. pose proof (rstrip_length (lstrip s)). pose proof (lstrip_length s). lia.
Qed.

Lemma lstrip_head (s : string) (c : ascii) (r : string) :
  lstrip s = String c r → isspace c = false.
Proof.
  induction s as [|d s IH]; simpl; [done|].
  destruct (isspace d) eqn:Hd; [done|]. by intros [= <- _].
Qed.

Lemma rstrip_idem (s : string) : rstrip (rstrip s) = rstrip s.
Proof.
  induction s as [|c r IH]; simpl; [done|].
  destruct (rstrip r) as [|d r'] eqn:Hr.
  - destruct (isspace c) eqn:Hc; simpl; [done|]. by rewrite Hc.
  - simpl. simpl in IH. by rewrite IH.
Qed.

Lemma rstrip_keeps_head (c : ascii) (r : string) :
  isspace c = false → ∃ r', rstrip (String c r) = String c r'.
Proof.
  intros Hc. simpl. destruct (rstrip r); [rewrite Hc|]; by eexists.
Qed.

(** Trimming a trimmed string changes nothing. *)
Lemma strip_idem (s : string) : strip (strip s) = strip s.
Proof.
  unfold strip. destruct (lstrip s) as [|c r] eqn:Hl; [done|].
  pose proof (lstrip_head _ _ _ Hl) as Hc.
  destruct (rstrip_keeps_head c r Hc) as [r' Hr]. rewrite Hr.
  simpl lstrip. rewrite Hc. rewrite <- Hr. apply rstrip_idem.
Qed.

Lemma substring_length_le (a m : nat) (s : string) :
  (String.length (substring a m s) <= m)%nat.
Proof.
  revert a m. induction s as [|c r IH]; intros a m.
  - destruct a, m; simpl; lia.
  - destruct a as [|a]; [destruct m as [|m]|]; simpl; [lia| |apply IH].
    specialize (IH O m). lia.
Qed.

Lemma substring_length_exact (m : nat) (s : string) :
  (m <= String.length s)%nat → String.length (substring 0 m s) = m.
Proof.
  revert m. induction s as [|c r IH]; intros m Hm.
  - simpl in Hm. by replace m with O by lia.
  - destruct m as [|m]; [done|]. simpl in *. rewrite IH; lia.
Qed.

Lemma slice_length_le (s : string) (lo hi : Z) :
  0 <= lo <= hi → Z.of_nat (String.length (slice s lo hi)) <= hi - lo.
Proof.
  intros Hlo. unfold slice.
  pose proof (substring_length_le (Z.to_nat (clamp (len s) lo))
                (Z.to_nat (clamp (len s) hi - clamp (len s) lo)) s) as H.
  unfold clamp in *. unfold len in *.
  destruct (Z.ltb_spec lo 0); [lia|].
  destruct (Z.ltb_spec hi 0); lia.
Qed.

(** Every character of a substring is a character of the string. *)
Lemma substring_chars (P : ascii → Prop) (a m : nat) (s : string) :
  Forall P (list_ascii_of_string s) → Forall P (list_ascii_of_string (substring a m s)).
Proof.
  revert a m. induction s as [|c r IH]; intros a m Hs.
  - destruct a, m; simpl; constructor.
  - simpl in Hs. apply Forall_cons in Hs as [Hc Hr].
    destruct a as [|a]; [destruct m as [|m]|]; simpl; [constructor| |by apply IH].
    constructor; [done|by apply IH].
Qed.

End StringFacts.

(** ** The identity scheme *)
Section HashFormat.
Import PyStr Chunker ExtraSpec.

Lemma be_bytes_length (width : nat) (x : N) : length (Sha1.be_bytes width x) = width.
Proof. unfold Sha1.be_bytes. by rewrite length_map, length_rev, length_seq. Qed.

Lemma be_bytes_range (width : nat) (x : N) :
  Forall (fun b => (b < 256)%N) (Sha1.be_bytes width x).
Proof.
  unfold Sha1.be_bytes. apply Forall_map, Forall_forall. intros i _. simpl.
  change 255%N with (N.ones 8). rewrite N.land_ones.
  apply N.mod_lt. discriminate.
Qed.

Lemma digest_bytes (msg : list N) :
  length (Sha1.digest msg) = 20%nat ∧ Forall (fun b => (b < 256)%N) (Sha1.digest msg).
Proof.
  unfold Sha1.digest.
  destruct (fold_left Sha1.compress _ _) as [[[[h0 h1] h2] h3] h4].
  split.
  - by rewrite !length_app, !be_bytes_length.
  - repeat (apply Forall_app; split); apply be_bytes_range.
Qed.

Lemma hex_digit_lower (n : N) : (n < 16)%N → is_hex_lower (Sha1.hex_digit n).
Proof.
  intros Hn. unfold is_hex_lower, Sha1.hex_digit, code.
  destruct (N.ltb_spec n 10).
  - rewrite N_ascii_embedding by lia. lia.
  - rewrite N_ascii_embedding by lia. lia.
Qed.

Lemma hex_length (bs : list N) : String.length (Sha1.hex bs) = (2 * length bs)%nat.
Proof. induction bs as [|b bs IH]; simpl; [done|]. rewrite IH. lia. Qed.

Lemma hex_chars (bs : list N) :
  Forall (fun b => (b < 256)%N) bs →
  Forall is_hex_lower (list_ascii_of_string (Sha1.hex bs)).
Proof.
  induction 1 as [|b bs Hb Hbs IH]; simpl; [constructor|].
  constructor; [|constructor; [|done]].
  - apply hex_digit_lower. rewrite N.shiftr_div_pow2.
    apply N.Div0.div_lt_upper_bound. simpl. lia.
  - apply hex_digit_lower. change 15%N with (N.ones 4). rewrite N.land_ones.
    apply N.mod_lt. discriminate.
Qed.

(** X1. An identifier of [n] digits, for [n] from 0 to 40, has exactly [n]
    characters and every one of them is a lower-case hexadecimal digit; the
    default identifier has 16. *)
Theorem hash_id_format (parts : list string) (n : Z) :
  0 <= n <= 40 →
  len (_hash_id_n parts n) = n ∧
  Forall is_hex_lower (list_ascii_of_string (_hash_id_n parts n)) ∧
  len (_hash_id parts) = 16.
Proof.
  intros Hn.
  assert (∀ m, 0 <= m <= 40 → len (_hash_id_n parts m) = m) as Hlen.
  { intros m Hm. unfold _hash_id_n, slice, len, Sha1.hexdigest.
    destruct (digest_bytes (encode_utf8 (join "::" parts))) as [Hd _].
    rewrite hex_length, Hd. unfold clamp.
    destruct (Z.ltb_spec m 0); [lia|].
    change (0 <? 0) with false. cbv iota.
    replace (Z.min 0 (Z.of_nat (2 * 20))) with 0 by lia.
    rewrite Z.min_l by lia. rewrite Z.sub_0_r. change (Z.to_nat 0) with O.
    rewrite substring_length_exact; [lia|]. rewrite hex_length, Hd. lia. }
  split; [by apply Hlen|]. split; [|apply Hlen; lia].
  unfold _hash_id_n, slice. apply substring_chars.
  apply hex_chars. apply digest_bytes.
Qed.

Lemma hash_id_format_witness :
  0 <= 8 <= 40 ∧
  len (_hash_id_n ["a"; "b"]%string 8) = 8 ∧
  Forall is_hex_lower (list_ascii_of_string (_hash_id_n ["a"; "b"]%string 8)) ∧
  len (_hash_id ["a"; "b"]%string) = 16.
Proof.
  split; [lia|]. apply (hash_id_format ["a"; "b"]%string 8). lia.
Defined.

End HashFormat.

(** ** The window slicer: sizes and number of windows *)
Section WindowCount.
Import PyStr Chunker ChunkerSpec.

Lemma tiles_sizes (sz ov n i : Z) (ws : list (Z * Z)) :
  0 <= ov < sz → tiles sz ov n i ws →
  (∀ w, w ∈ ws → w.2 - w.1 <= sz) ∧
  (∀ k w w', ws !! k = Some w → ws !! S k = Some w' → w.2 - w.1 = sz).
Proof.
  intros Hov. revert i. induction ws as [|w0 rest IH]; intros i Ht.
  - split; [intros w Hw; by apply elem_of_nil in Hw | done].
  - apply tiles_cons_inv in Ht as (Ha & Hi & [(-> & Hb & Hend)|(Hne & Hb & Hlt & Ht)]).
    + split; [|by intros [|k]].
      intros w Hw. apply list_elem_of_singleton in Hw as ->. lia.
    + destruct (IH _ Ht) as [IH1 IH2]. split.
      * intros w Hw. apply elem_of_cons in Hw as [->|Hw]; [lia|by apply IH1].
      * intros [|k] w w' Hw Hw'; simpl in *.
        -- injection Hw as <-. lia.
        -- by eapply IH2.
Qed.

(** The number of windows produced from offset [i] on. *)
Lemma windows_from_count (sz ov n i : Z) :
  0 <= ov < sz →
  Z.of_nat (length (windows_from sz ov n i))
  = (if n <=? i then 0
     else if n <=? i + sz then 1
     else 1 + (n - i - sz + (sz - ov) - 1) / (sz - ov)).
Proof.
  intros Hov.
  remember (Z.to_nat (n - i)) as k eqn:Hk. revert i Hk.
  induction (lt_wf k) as [k _ IH]; intros i ->.
  destruct (Z.leb_spec n i) as [Hdone|Hlt].
  { by rewrite windows_from_done. }
  destruct (Z.leb_spec n (i + sz)) as [Hlast|Hmore].
  { by rewrite windows_from_last by lia. }
  rewrite windows_from_more by lia.
  assert (Z.to_nat (n - (i + sz - ov)) < Z.to_nat (n - i))%nat as Hdec by lia.
  rewrite length_cons, Nat2Z.inj_succ, (IH _ Hdec _ eq_refl).
  set (d := sz - ov). assert (0 < d) as Hd by (unfold d; lia).
  destruct (Z.leb_spec n (i + sz - ov)) as [H1|H1]; [lia|].
  destruct (Z.leb_spec n (i + sz - ov + sz)) as [H2|H2].
  - assert ((n - i - sz + d - 1) / d = 1) as ->; [|lia].
    symmetry. apply Z.div_unique with (r := n - i - sz - 1); unfold d; lia.
  - replace (n - i - sz + d - 1) with ((n - (i + sz - ov) - sz + d - 1) + 1 * d)
      by (unfold d; lia).
    rewrite Z.div_add by lia. lia.
Qed.

(** X2. With a valid configuration every window has at most [sz]
    characters, every window but the last has exactly [sz], and the number
    of windows is 0 for the empty text, 1 for a text of at most [sz]
    characters, and otherwise 1 plus the number of steps of [sz - ov]
    characters needed to cover the remaining [len s - sz] characters. *)
Theorem char_windows_sizes_and_count (s : string) (sz ov : Z) :
  0 < sz → 0 <= ov < sz →
  ∃ ws, _char_windows s sz ov = Ok ws ∧
    (∀ w, w ∈ ws → w.2 - w.1 <= sz) ∧
    (∀ k w w', ws !! k = Some w → ws !! S k = Some w' → w.2 - w.1 = sz) ∧
    Z.of_nat (length ws)
    = (if len s =? 0 then 0
       else if len s <=? sz then 1
       else 1 + (len s - sz + (sz - ov) - 1) / (sz - ov)).
Proof.
  intros Hsz Hov. exists (windows_from sz ov (len s) 0).
  split; [by apply char_windows_ok|].
  pose proof (tiles_sizes _ _ _ _ _ Hov (windows_from_tiles sz ov (len s) 0 Hov))
    as [Hle Heq].
  split; [done|]. split; [done|].
  rewrite windows_from_count by done.
  pose proof (len_nonneg s).
  destruct (Z.leb_spec (len s) 0), (Z.eqb_spec (len s) 0); try lia.
  rewrite Z.add_0_l, Z.sub_0_r. done.
Qed.

Lemma char_windows_sizes_and_count_witness :
  0 < 800 ∧ 0 <= 120 < 800 ∧
  ∃ ws, _char_windows (text_of_length 2000) 800 120 = Ok ws ∧
    (∀ w, w ∈ ws → w.2 - w.1 <= 800) ∧
    (∀ k w w', ws !! k = Some w → ws !! S k = Some w' → w.2 - w.1 = 800) ∧
    Z.of_nat (length ws)
    = (if len (text_of_length 2000) =? 0 then 0
       else if len (text_of_length 2000) <=? 800 then 1
       else 1 + (len (text_of_length 2000) - 800 + (800 - 120) - 1) / (800 - 120)).
Proof.
  split; [lia|]. split; [lia|].
  apply (char_windows_sizes_and_count (text_of_length 2000) 800 120); lia.
Defined.

End WindowCount.

(** ** The section splitter: number and shape of the sections *)
Section SectionShape.
Import PyStr Chunker ChunkerSpec ExtraSpec.

Lemma flush_length (st : splitter) :
  length (flush st) = (length (sections st) + if buf st is [] then 0 else 1)%nat.
Proof.
  unfold flush. destruct (buf st); [lia|]. rewrite length_app. simpl. lia.
Qed.

Lemma split_count (lines : list string) (st : splitter) :
  length (flush (fold_left split_step lines st))
  = (length (sections st) + length (filter (fun ln => is_heading ln = true) lines)
     + match buf st, lines with
       | [], [] => 0
       | [], ln :: _ => if is_heading ln then 0 else 1
       | _, _ => 1
       end)%nat.
Proof.
  revert st. induction lines as [|ln lines IH]; intros st.
  - simpl. rewrite flush_length. destruct (buf st); simpl; lia.
  - simpl. rewrite IH. unfold split_step.
    destruct (H_RE_match ln) as [[level title]|] eqn:Hm.
    + assert (is_heading ln = true) as Hh by (unfold is_heading; by rewrite Hm).
      rewrite filter_cons_True by done. rewrite Hh. simpl.
      rewrite flush_length. destruct (buf st); simpl; lia.
    + assert (is_heading ln = false) as Hh by (unfold is_heading; by rewrite Hm).
      rewrite filter_cons_False by (by rewrite Hh). rewrite Hh. simpl.
      destruct (buf st); simpl; lia.
Qed.

(** The number of sections of a document is the number of its heading
    lines, plus one when its first line is not a heading. *)
Lemma split_sections_count (md : string) :
  length (_split_sections md)
  = (length (filter (fun ln => is_heading ln = true) (splitlines md))
     + match splitlines md with
       | [] => 0
       | ln :: _ => if is_heading ln then 0 else 1
       end)%nat.
Proof.
  unfold _split_sections. rewrite split_count. simpl.
  by destruct (splitlines md).
Qed.

Lemma path_label_nonempty (path : list string) : path_label path ≠ EmptyString.
Proof.
  unfold path_label. destruct (join _ _) eqn:Hj; simpl; [discriminate|done].
Qed.

Lemma flush_shape (st : splitter) :
  Forall section_shape (sections st) → Forall section_shape (flush st).
Proof.
  intros Hst. unfold flush. destruct (buf st); [done|].
  apply Forall_app. split; [done|]. constructor; [|constructor].
  split; [apply path_label_nonempty|]. eexists. split; [reflexivity|apply strip_idem].
Qed.

Lemma split_shape (lines : list string) (st : splitter) :
  Forall section_shape (sections st) →
  Forall section_shape (sections (fold_left split_step lines st)).
Proof.
  revert st. induction lines as [|ln lines IH]; intros st Hst; [done|].
  simpl. apply IH. unfold split_step.
  destruct (H_RE_match ln) as [[level title]|]; simpl; [by apply flush_shape|done].
Qed.

(** X4. Every section has a path that is not the empty string (the root
    sentinel stands in for an empty path), and its text is a trimmed body
    followed by exactly one line feed. *)
Theorem split_sections_shape (md : string) (sec : string * string) :
  sec ∈ _split_sections md →
  sec.1 ≠ EmptyString ∧ ∃ body, sec.2 = body +:+ NL ∧ strip body = body.
Proof.
  intros Hin.
  assert (Forall section_shape (_split_sections md)) as Hall.
  { unfold _split_sections. apply flush_shape, split_shape. constructor. }
  rewrite Forall_forall in Hall. exact (Hall sec Hin).
Qed.

Lemma split_sections_shape_witness :
  ("Title > Section", "## Section" +:+ NL +:+ "aaa" +:+ NL)%string ∈ _split_sections sample_doc ∧
  ("Title > Section"%string ≠ EmptyString ∧
   ∃ body, ("## Section" +:+ NL +:+ "aaa" +:+ NL)%string = body +:+ NL ∧ strip body = body).
Proof.
  assert (("Title > Section", "## Section" +:+ NL +:+ "aaa" +:+ NL)%string
          ∈ _split_sections sample_doc) as Hin.
  { vm_compute. apply list_elem_of_further, list_elem_of_here. }
  split; [exact Hin|].
  exact (split_sections_shape sample_doc _ Hin).
Defined.

Lemma heading_starts_with_hash (ln : string) :
  is_heading ln = true → starts_with "#" ln.
Proof.
  unfold is_heading, H_RE_match. destruct ln as [|c r]; [done|].
  destruct (Ascii.eqb_spec c "#") as [->|Hc]; [by eexists|].
  assert (hashes (String c r) = (O, String c r)) as ->; [|done].
  destruct c as [[] [] [] [] [] [] [] []]; done.
Qed.

Lemma strip_keeps_head (c : ascii) (r : string) :
  isspace c = false → starts_with c (strip (String c r)).
Proof.
  intros Hc. unfold strip. simpl lstrip. rewrite Hc.
  destruct (rstrip_keeps_head c r Hc) as [r' ->]. by eexists.
Qed.

Lemma section_text_starts_with_hash (h : string) (rest : list string) :
  starts_with "#" h → starts_with "#" (strip (join NL (h :: rest)) +:+ NL).
Proof.
  intros [r ->].
  assert (starts_with "#" (join NL (String "#" r :: rest))) as [r1 ->].
  { unfold join. destruct rest; simpl; by eexists. }
  destruct (strip_keeps_head "#" r1 eq_refl) as [r2 ->]. by eexists.
Qed.

Lemma split_step_inv (k : nat) (st : splitter) (ln : string) :
  split_inv k st →
  split_inv (if is_heading ln then S k else k) (split_step st ln).
Proof.
  intros Hinv. unfold split_step.
  destruct (is_heading ln) eqn:Hh.
  - pose proof (heading_starts_with_hash ln Hh) as Hstart.
    unfold is_heading in Hh.
    destruct (H_RE_match ln) as [[level title]|]; [|done]. right.
    destruct Hinv as [(-> & Hsec & Hpath)|(root & hs & h & rest & Hsec & Hroot & Hlab & Hhs & Hbuf & Hh0 & <-)].
    + exists (flush st), [], ln, []. simpl. rewrite app_nil_r.
      unfold flush. rewrite Hsec, Hpath.
      destruct (buf st); simpl; repeat split; auto; by repeat constructor.
    + exists root, (hs ++ [(path_label (path st), strip (join NL (h :: rest)) +:+ NL)]), ln, [].
      simpl. unfold flush. rewrite Hbuf, Hsec, <- app_assoc, length_app. simpl.
      repeat split; auto; [|lia].
      apply Forall_app. split; [done|]. constructor; [|done].
      by apply section_text_starts_with_hash.
  - unfold is_heading in Hh. destruct (H_RE_match ln) as [[level title]|]; [done|].
    destruct Hinv as [(-> & Hsec & Hpath)|(root & hs & h & rest & Hsec & Hroot & Hlab & Hhs & Hbuf & Hh0 & <-)].
    + by left.
    + right. exists root, hs, h, (rest ++ [ln]). simpl. rewrite Hbuf. by repeat split.
Qed.

Lemma split_fold_inv (lines : list string) (k : nat) (st : splitter) :
  split_inv k st →
  split_inv (k + length (filter (fun ln => is_heading ln = true) lines))
            (fold_left split_step lines st).
Proof.
  revert k st. induction lines as [|ln lines IH]; intros k st Hinv.
  - simpl. by rewrite Nat.add_0_r.
  - simpl. apply (split_step_inv _ _ ln) in Hinv.
    destruct (is_heading ln) eqn:Hh.
    + rewrite filter_cons_True by done. simpl.
      replace (k + S _)%nat with (S k + length (filter (fun ln => is_heading ln = true) lines))%nat by lia.
      by apply IH.
    + rewrite filter_cons_False by (by rewrite Hh). by apply IH.
Qed.

(** X3. The sections of a document are at most one section under the root
    sentinel (present exactly when the first line is not a heading),
    followed by one section per heading line whose text starts with that
    heading's '#'. *)
Theorem split_sections_structure (md : string) :
  ∃ root hs,
    _split_sections md = root ++ hs ∧
    length root = match splitlines md with
                  | [] => O
                  | ln :: _ => if is_heading ln then O else 1%nat
                  end ∧
    Forall (fun sec => sec.1 = "(root)"%string) root ∧
    length hs = length (filter (fun ln => is_heading ln = true) (splitlines md)) ∧
    Forall (fun sec => starts_with "#" sec.2) hs.
Proof.
  pose proof (split_sections_count md) as Hcount.
  assert (split_inv O split_init) as Hinit by (left; done).
  apply (split_fold_inv (splitlines md)) in Hinit. simpl in Hinit.
  unfold _split_sections in *. fold split_init in Hcount |- *.
  set (st := fold_left split_step (splitlines md) split_init) in *.
  set (heads := length (filter _ (splitlines md))) in *.
  destruct Hinit as [(Hk & Hsec & Hpath)|(root & hs & h & rest & Hsec & Hroot & Hlab & Hhs & Hbuf & Hh0 & Hk)].
  - exists (flush st), []. rewrite app_nil_r. rewrite <- Hk in *.
    split; [done|]. split; [simpl in *; lia|]. split; [|done].
    unfold flush. rewrite Hsec, Hpath. destruct (buf st); by repeat constructor.
  - exists root, (hs ++ [(path_label (path st), strip (join NL (h :: rest)) +:+ NL)]).
    assert (flush st = root ++ hs ++ [(path_label (path st), strip (join NL (h :: rest)) +:+ NL)]) as Hflush.
    { unfold flush. by rewrite Hbuf, Hsec, <- app_assoc. }
    rewrite Hflush in *. rewrite !length_app in *. simpl in *.
    split; [done|]. split; [lia|]. split; [done|]. split; [lia|].
    apply Forall_app. split; [done|]. constructor; [|done].
    by apply section_text_starts_with_hash.
Qed.

End SectionShape.

(** ** The chunker: what every chunk looks like *)
Section ChunkShape.
Import PyStr Chunker ChunkerSpec ExtraSpec.

(** A property kept by every iteration that returns holds at the end. *)
Lemma for_each_invariant {S A : Type} (body : S → A → res S) (P : S → Prop)
    (xs : list A) (s s' : S) :
  (∀ s x s', x ∈ xs → P s → body s x = Ok s' → P s') →
  P s → for_each body xs s = Ok s' → P s'.
Proof.
  revert s. induction xs as [|x xs IH]; intros s Hbody Hs; simpl.
  - by intros [= <-].
  - destruct (body s x) as [s1|e] eqn:Hx; [|done]. simpl.
    apply IH.
    + intros s0 y s0' Hy. apply Hbody. by apply list_elem_of_further.
    + eapply Hbody; [apply list_elem_of_here|done|done].
Qed.

Lemma window_piece_shape (self : SectionChunker) (sec p : string * string)
    (ws : list (Z * Z)) :
  0 <= over self < size self →
  _char_windows sec.2 (size self) (over self) = Ok ws →
  p ∈ window_pieces sec ws →
  p.1 = sec.1 ∧ strip p.2 = p.2 ∧ p.2 ≠ EmptyString ∧ 0 < len p.2 <= size self.
Proof.
  intros Hcfg Hws Hp. rewrite char_windows_ok in Hws by lia. injection Hws as <-.
  unfold window_pieces in Hp. apply list_elem_of_filter in Hp as [Hne Hp].
  apply list_elem_of_fmap in Hp as (w & -> & Hw). simpl in *.
  assert (0 <= over self < size self) as Hov by lia.
  pose proof (windows_from_tiles (size self) (over self) (len sec.2) 0 Hov) as Ht.
  pose proof (tiles_bounds _ _ _ _ _ Hov Ht w Hw) as Hb.
  destruct (tiles_sizes _ _ _ _ _ Hov Ht) as [Hsz _]. specialize (Hsz w Hw).
  split; [done|]. split; [apply strip_idem|].
  assert (strip (slice sec.2 w.1 w.2) ≠ EmptyString) as Hne'.
  { intros Heq. by rewrite Heq in Hne. }
  split; [done|].
  pose proof (strip_length (slice sec.2 w.1 w.2)).
  pose proof (slice_length_le sec.2 w.1 w.2 ltac:(lia)).
  unfold len. split; [|lia].
  destruct (strip (slice sec.2 w.1 w.2)); [done|]. simpl. lia.
Qed.

Lemma document_pieces_shape (self : SectionChunker) (md : string)
    (ps : list (string * string)) :
  0 <= over self < size self →
  document_pieces self md = Ok ps →
  Forall (fun p => p.1 ∈ (_split_sections md).*1 ∧ strip p.2 = p.2 ∧
                   0 < len p.2 <= size self) ps.
Proof.
  intros Hcfg. unfold document_pieces.
  apply (for_each_invariant _ (Forall _)); [|constructor].
  intros acc sec acc' Hsec Hacc. unfold section_pieces.
  destruct (_char_windows sec.2 (size self) (over self)) as [ws|e] eqn:Hws; [|done].
  simpl. intros [= <-]. apply Forall_app. split; [done|].
  apply Forall_forall. intros p Hp.
  destruct (window_piece_shape self sec p ws Hcfg Hws Hp) as (H1 & H2 & _ & H4).
  split; [|done]. rewrite H1. apply list_elem_of_fmap. by exists sec.
Qed.

(** X5. With a valid configuration every chunk carries the given source
    path and the document's id, the path of one of the document's sections,
    and a text that is trimmed, not empty and at most [chunk_chars]
    characters long. *)
Theorem chunk_shape (self : SectionChunker) (md source : string)
    (cs : list Chunk) (c : Chunk) :
  0 <= over self < size self →
  chunk_markdown_text self md source = Ok cs → c ∈ cs →
  source_file c = source ∧
  doc_id c = _hash_id [doc_key md source] ∧
  section_path c ∈ (_split_sections md).*1 ∧
  strip (text c) = text c ∧
  0 < len (text c) <= size self.
Proof.
  intros Hcfg Hrun Hc.
  apply list_elem_of_lookup in Hc as [i Hc].
  destruct (chunk_lookup _ _ _ _ _ _ Hrun Hc) as (ps & p & Hps & Hp & ->).
  pose proof (document_pieces_shape _ _ _ Hcfg Hps) as Hall.
  rewrite Forall_forall in Hall.
  destruct (Hall p) as (H1 & H2 & H3); [apply list_elem_of_lookup; by exists i|].
  simpl. done.
Qed.

Lemma chunk_shape_witness :
  ∃ cs c,
    0 <= over sample_chunker < size sample_chunker ∧
    chunk_markdown_text sample_chunker sample_doc "guide.md" = Ok cs ∧ c ∈ cs ∧
    source_file c = "guide.md"%string ∧
    doc_id c = _hash_id [doc_key sample_doc "guide.md"] ∧
    section_path c ∈ (_split_sections sample_doc).*1 ∧
    strip (text c) = text c ∧
    0 < len (text c) <= size sample_chunker.
Proof.
  destruct (chunk_markdown_text sample_chunker sample_doc "guide.md")
    as [cs|e] eqn:Hrun; vm_compute in Hrun; [|discriminate Hrun].
  injection Hrun as <-.
  eexists _, _.
  split; [simpl; lia|]. split; [reflexivity|]. split; [apply list_elem_of_here|].
  eapply (chunk_shape sample_chunker sample_doc "guide.md");
    [simpl; lia | vm_compute; reflexivity | apply list_elem_of_here].
Defined.

(** *** The document key *)

Lemma search_bol_some {A : Type} (m : string → option A) (P : A → Prop)
    (bol : bool) (s : string) (r : A) :
  (∀ t x, m t = Some x → P x) → search_bol m bol s = Some r → P r.
Proof.
  intros Hm. revert bol. induction s as [|c s IH]; intros bol; simpl.
  - destruct bol; [|done]. destruct (m EmptyString) eqn:H0; [|done].
    intros [= <-]. by eapply Hm.
  - destruct bol.
    + destruct (m (String c s)) eqn:H0.
      * intros [= <-]. by eapply Hm.
      * apply IH.
    + apply IH.
Qed.

Lemma nonspace_run_strip (s : string) : strip (nonspace_run s) = nonspace_run s.
Proof.
  unfold strip.
  assert (∀ t, lstrip (nonspace_run t) = nonspace_run t) as Hl.
  { intros [|c t]; simpl; [done|]. destruct (isspace c) eqn:Hc; simpl; [done|].
    by rewrite Hc. }
  rewrite Hl. induction s as [|c s IH]; simpl; [done|].
  destruct (isspace c) eqn:Hc; simpl; [done|].
  rewrite IH. destruct (nonspace_run s); [by rewrite Hc|done].
Qed.

Lemma source_url_shape (md url : string) :
  (_title_url md).2 = Some url →
  url ≠ EmptyString ∧ Forall (fun c => isspace c = false) (list_ascii_of_string url).
Proof.
  unfold _title_url. simpl.
  destruct (search_bol SOURCE_RE_at true md) as [g|] eqn:Hs; [|done].
  simpl. intros [= <-].
  apply (search_bol_some _ (fun g => ∃ t, g = nonspace_run t ∧ g ≠ EmptyString)) in Hs.
  - destruct Hs as (t & -> & Hne). rewrite nonspace_run_strip. split; [done|].
    clear. induction t as [|c t IH]; simpl; [constructor|].
    destruct (isspace c) eqn:Hc; simpl; [constructor|by constructor].
  - intros t x. unfold SOURCE_RE_at.
    destruct t as [|c t]; [done|].
    destruct (Ascii.eqb_spec c ">") as [->|Hc].
    + destruct (drop_literal_ci _ _) as [r|]; [|done].
      destruct (is_empty (nonspace_run (lstrip r))) eqn:He; [done|].
      intros [= <-]. eexists. split; [done|]. intros Heq. by rewrite Heq in He.
    + destruct c as [[] [] [] [] [] [] [] []]; done.
Qed.

(** X6. A document that carries a "Source:" line is keyed by the address on
    that line, which is not empty and holds no space character, and not by
    its file path: read from two different paths it gets the same doc id
    and the same chunk ids. *)
Theorem source_line_decides_ids (self : SectionChunker) (md url source1 source2 : string)
    (cs1 cs2 : list Chunk) :
  (_title_url md).2 = Some url →
  chunk_markdown_text self md source1 = Ok cs1 →
  chunk_markdown_text self md source2 = Ok cs2 →
  url ≠ EmptyString ∧
  Forall (fun c => isspace c = false) (list_ascii_of_string url) ∧
  doc_key md source1 = url ∧
  map chunk_id cs1 = map chunk_id cs2 ∧
  Forall (fun c => doc_id c = _hash_id [url]) cs1.
Proof.
  intros Hurl. destruct (source_url_shape md url Hurl) as [Hne Hsp].
  assert (∀ source, doc_key md source = url) as Hkey.
  { intros source. unfold doc_key. rewrite Hurl. by destruct url. }
  rewrite !chunk_markdown_text_pieces, !Hkey.
  destruct (document_pieces self md) as [ps|e]; [|done]. simpl.
  intros [= <-] [= <-].
  split; [done|]. split; [done|]. split; [done|]. split.
  - unfold numbered. change (map chunk_id) with (fmap (M:=list) chunk_id). rewrite !fmap_imap. by apply imap_ext.
  - apply Forall_forall. intros c Hc. apply list_elem_of_lookup in Hc as [i Hc].
    by apply numbered_lookup in Hc as (p & _ & ->).
Qed.

Lemma source_line_decides_ids_witness :
  ∃ cs1 cs2,
    (_title_url sample_doc).2 = Some "https://x/y"%string ∧
    chunk_markdown_text sample_chunker sample_doc "guide.md" = Ok cs1 ∧
    chunk_markdown_text sample_chunker sample_doc "moved/guide.md" = Ok cs2 ∧
    "https://x/y"%string ≠ EmptyString ∧
    Forall (fun c => isspace c = false) (list_ascii_of_string "https://x/y") ∧
    doc_key sample_doc "guide.md" = "https://x/y"%string ∧
    map chunk_id cs1 = map chunk_id cs2 ∧
    Forall (fun c => doc_id c = _hash_id ["https://x/y"%string]) cs1.
Proof.
  destruct (chunk_markdown_text sample_chunker sample_doc "guide.md")
    as [cs1|e1] eqn:Hrun1; vm_compute in Hrun1; [|discriminate Hrun1].
  destruct (chunk_markdown_text sample_chunker sample_doc "moved/guide.md")
    as [cs2|e2] eqn:Hrun2; vm_compute in Hrun2; [|discriminate Hrun2].
  injection Hrun1 as <-. injection Hrun2 as <-.
  eexists _, _.
  split; [vm_compute; reflexivity|]. split; [reflexivity|]. split; [reflexivity|].
  eapply (source_line_decides_ids sample_chunker sample_doc "https://x/y"
            "guide.md" "moved/guide.md"); vm_compute; reflexivity.
Defined.

(** *** The constructor *)


End ChunkShape.

(** ** The JSON block of a reply *)
Section JsonBlock.
Import PyStr Json ExtractGraph PipelineSpec ExtraSpec.

Lemma find_from_spec (c : ascii) (s : string) (i : Z) :
  find_from c s i = -1 ∨
  ∃ k, find_from c s i = i + Z.of_nat k ∧ (k < String.length s)%nat ∧
       String.get k s = Some c.
Proof.
  revert i. induction s as [|d r IH]; intros i; simpl; [by left|].
  destruct (Ascii.eqb_spec c d) as [->|Hne].
  - right. exists O. simpl. split; [lia|]. split; [lia|done].
  - destruct (IH (i + 1)) as [H|(k & H & Hk & Hget)]; [by left|].
    right. exists (S k). simpl. split; [lia|]. split; [lia|done].
Qed.

Lemma rfind_from_spec (c : ascii) (s : string) (i last : Z) :
  (rfind_from c s i last = last ∧ ∀ j, String.get j s ≠ Some c) ∨
  ∃ k, rfind_from c s i last = i + Z.of_nat k ∧ (k < String.length s)%nat ∧
       String.get k s = Some c ∧ ∀ j, (k < j)%nat → String.get j s ≠ Some c.
Proof.
  revert i last. induction s as [|d r IH]; intros i last; simpl.
  - left. by split.
  - destruct (IH (i + 1) (if Ascii.eqb c d then i else last))
      as [[H Hno]|(k & H & Hk & Hget & Hlast)].
    + destruct (Ascii.eqb_spec c d) as [->|Hne].
      * right. exists O. simpl. split; [lia|]. split; [lia|]. split; [done|].
        intros [|j] Hj; [lia|]. apply Hno.
      * left. split; [done|]. intros [|j]; [congruence|apply Hno].
    + right. exists (S k). simpl. split; [lia|]. split; [lia|]. split; [done|].
      intros [|j] Hj; [lia|]. apply Hlast. lia.
Qed.

Lemma substring_length (a m : nat) (s : string) :
  (a + m <= String.length s)%nat → String.length (substring a m s) = m.
Proof.
  revert a m. induction s as [|c r IH]; intros a m Hlen; simpl in Hlen.
  - by replace a with O by lia; replace m with O by lia.
  - destruct a as [|a]; [destruct m as [|m]|]; simpl; [done| |apply IH; lia].
    rewrite IH; [done|lia].
Qed.

Lemma substring_all (s : string) : substring 0 (String.length s) s = s.
Proof. induction s as [|c r IH]; simpl; [done|]. by rewrite IH. Qed.

Lemma get_head (s : string) (c : ascii) : String.get 0 s = Some c → starts_with c s.
Proof. destruct s as [|d r]; simpl; [done|]. intros [= ->]. by eexists. Qed.

(** X8. When the text has an opening brace and its last closing brace comes
    after its first opening brace, the block runs from the one to the
    other: it starts with "{", ends with "}", has [rfind - find + 1]
    characters, and extracting the block of the block gives it back. *)
Theorem extract_json_block_shape (text : string) :
  find "{" text ≠ -1 → find "{" text < rfind "}" text →
  let block := _extract_json_block text in
  len block = rfind "}" text - find "{" text + 1 ∧
  String.get 0 block = Some "{"%char ∧
  String.get (Z.to_nat (len block - 1)) block = Some "}"%char ∧
  _extract_json_block block = block.
Proof.
  intros Hfind Hord block.
  destruct (find_from_spec "{" text 0) as [H|(a & Ha & Halen & Haget)]; [done|].
  destruct (rfind_from_spec "}" text 0 (-1)) as [[H _]|(b & Hb & Hblen & Hbget & _)].
  { unfold find, rfind in *. lia. }
  fold (find "{" text) in Ha. fold (rfind "}" text) in Hb.
  assert (block = substring a (b - a + 1) text) as Hblock.
  { unfold block, _extract_json_block. rewrite Ha, Hb.
    destruct (Z.eqb_spec (0 + Z.of_nat a) (-1)); [lia|].
    destruct (Z.eqb_spec (0 + Z.of_nat b) (-1)); [lia|].
    destruct (Z.leb_spec (0 + Z.of_nat b) (0 + Z.of_nat a)); [lia|]. simpl.
    unfold slice, clamp, len.
    destruct (Z.ltb_spec (0 + Z.of_nat a) 0); [lia|].
    destruct (Z.ltb_spec (0 + Z.of_nat b + 1) 0); [lia|].
    f_equal; lia. }
  assert ((a < b)%nat) as Hab by lia.
  assert (String.length block = (b - a + 1)%nat) as Hlen.
  { rewrite Hblock. apply substring_length. lia. }
  assert (String.get 0 block = Some "{"%char) as Hfirst.
  { rewrite Hblock, substring_correct1 by lia. done. }
  assert (String.get (b - a) block = Some "}"%char) as Hlast.
  { rewrite Hblock, substring_correct1 by lia.
    by replace (b - a + a)%nat with b by lia. }
  split; [unfold len; lia|]. split; [done|].
  split. { unfold len. rewrite Hlen. by replace (Z.to_nat _) with (b - a)%nat by lia. }
  (* the block of the block *)
  destruct (get_head _ _ Hfirst) as [r Hr].
  assert (find "{" block = 0) as Hf0 by (by rewrite Hr).
  assert (rfind "}" block = Z.of_nat (b - a)) as Hr0.
  { destruct (rfind_from_spec "}" block 0 (-1)) as [[_ Hno]|(k & Hk & Hklen & _ & Hmax)].
    - by destruct (Hno (b - a)%nat).
    - unfold rfind. rewrite Hk.
      destruct (decide (k < b - a)%nat) as [Hlt|Hge]; [by destruct (Hmax _ Hlt)|lia]. }
  unfold _extract_json_block. rewrite Hf0, Hr0.
  destruct (Z.leb_spec (Z.of_nat (b - a)) 0); [lia|].
  destruct (Z.eqb_spec (Z.of_nat (b - a)) (-1)); [lia|].
  change (0 =? -1) with false. cbv iota beta. simpl orb. cbv iota.
  unfold slice, clamp, len. rewrite Hlen.
  change (0 <? 0) with false. cbv iota.
  destruct (Z.ltb_spec (Z.of_nat (b - a) + 1) 0); [lia|].
  rewrite Z.min_l by lia. rewrite Z.min_l by lia.
  replace (Z.to_nat (Z.of_nat (b - a) + 1 - 0)) with (String.length block) by lia.
  apply substring_all.
Qed.

Lemma extract_json_block_shape_witness :
  find "{" reply_wrapped ≠ -1 ∧ find "{" reply_wrapped < rfind "}" reply_wrapped ∧
  len (_extract_json_block reply_wrapped)
  = rfind "}" reply_wrapped - find "{" reply_wrapped + 1 ∧
  String.get 0 (_extract_json_block reply_wrapped) = Some "{"%char ∧
  String.get (Z.to_nat (len (_extract_json_block reply_wrapped) - 1))
             (_extract_json_block reply_wrapped) = Some "}"%char ∧
  _extract_json_block (_extract_json_block reply_wrapped)
  = _extract_json_block reply_wrapped.
Proof.
  split; [vm_compute; discriminate|]. split; [vm_compute; reflexivity|].
  apply (extract_json_block_shape reply_wrapped);
    [vm_compute; discriminate | vm_compute; reflexivity].
Defined.

End JsonBlock.

(** ** The outcomes of parsing a reply *)
Section ParseOutcomes.
Import PyStr Json ExtractGraph PipelineSpec ExtraSpec.

Variable json_loads : string → option json.


End ParseOutcomes.

(** ** The graph upserts *)
Section GraphUpserts.
Import PyStr Json ExtractGraph CreateGraph PipelineSpec ExtraSpec.

Variable json_dumps : json → string.

(** A loop that raises does so in the body, at some element. *)
Lemma for_each_raise {S A : Type} (body : S → A → res S) (xs : list A) (s : S) (e : exn) :
  for_each body xs s = Raise e → ∃ s' x, x ∈ xs ∧ body s' x = Raise e.
Proof.
  revert s. induction xs as [|x xs IH]; intros s; simpl; [done|].
  destruct (body s x) as [s1|e1] eqn:Hx; simpl.
  - intros H. destruct (IH _ H) as (s' & y & Hy & Hraise).
    exists s', y. split; [by apply list_elem_of_further|done].
  - intros [= <-]. exists s, x. split; [apply list_elem_of_here|done].
Qed.

Lemma entity_run_fields (sf sp di : string) (ent : json) :
  match entity_run json_dumps sf sp di ent with
  | Ok r =>
      ∃ items, ent = JDict items ∧
        em_id r = default JNull (dict_lookup "id" items) ∧
        em_name r = default JNull (dict_lookup "name" items) ∧
        em_type r = default JNull (dict_lookup "type" items) ∧
        em_description r = default (JStr EmptyString) (dict_lookup "description" items) ∧
        em_extra_json r
        = json_dumps (match dict_lookup "extra" items with
                      | Some v => if truthy v then v else JDict []
                      | None => JDict []
                      end) ∧
        em_source_file r = sf ∧ em_section_path r = sp ∧ em_doc_id r = di
  | Raise e => e = AttributeError ∧ ¬ is_dict ent
  end.
Proof.
  destruct ent as [| | | | |l|items]; simpl; try (split; [done|by intros [? ?]]).
  exists items. repeat split. unfold or_else.
  by destruct (dict_lookup "extra" items).
Qed.

(** X10. [upsert_entities] returns exactly when every entity is an object;
    it then runs one statement per entity, in order, whose parameters are
    the entity's fields (a missing id, name or type is [None], a missing
    description the empty string, a missing or empty "extra" the empty
    object) with the chunk's source file, section path and doc id. When
    some entity is not an object it raises [AttributeError]. *)
Theorem upsert_entities_outcome (ents : list json) (sf sp di : string) :
  match upsert_entities json_dumps ents sf sp di with
  | Ok runs =>
      length runs = length ents ∧
      ∀ j ent, ents !! j = Some ent →
        ∃ items r, ent = JDict items ∧ runs !! j = Some r ∧
          em_id r = default JNull (dict_lookup "id" items) ∧
          em_name r = default JNull (dict_lookup "name" items) ∧
          em_type r = default JNull (dict_lookup "type" items) ∧
          em_description r
          = default (JStr EmptyString) (dict_lookup "description" items) ∧
          em_extra_json r
          = json_dumps (match dict_lookup "extra" items with
                        | Some v => if truthy v then v else JDict []
                        | None => JDict []
                        end) ∧
          em_source_file r = sf ∧ em_section_path r = sp ∧ em_doc_id r = di
  | Raise e => e = AttributeError ∧ ¬ Forall is_dict ents
  end.
Proof.
  destruct (upsert_entities json_dumps ents sf sp di) as [runs|e] eqn:Hrun.
  - apply upsert_entities_runs in Hrun.
    split; [symmetry; by eapply Forall2_length|].
    intros j ent Hj.
    destruct (Forall2_lookup_l _ _ _ _ _ Hrun Hj) as (r & Hr & Hent).
    pose proof (entity_run_fields sf sp di ent) as Hf. rewrite Hent in Hf.
    destruct Hf as (items & -> & Hf). by exists items, r.
  - apply for_each_raise in Hrun as (runs & ent & Hin & Hraise).
    pose proof (entity_run_fields sf sp di ent) as Hf.
    destruct (entity_run json_dumps sf sp di ent) as [r|e'] eqn:Hent; [done|].
    simpl in Hraise. injection Hraise as <-. destruct Hf as [-> Hnd].
    split; [done|]. intros Hall. rewrite Forall_forall in Hall. by apply Hnd, Hall.
Qed.

Lemma relation_run_fields (sf : string) (rel : json) :
  match relation_run sf rel with
  | Ok r =>
      ∃ items, rel = JDict items ∧
        rm_subject r = default JNull (dict_lookup "subject" items) ∧
        rm_predicate r = default JNull (dict_lookup "predicate" items) ∧
        rm_object r = default JNull (dict_lookup "object" items) ∧
        rm_description r = default (JStr EmptyString) (dict_lookup "description" items) ∧
        rm_source_file r = sf
  | Raise e => e = AttributeError ∧ ¬ is_dict rel
  end.
Proof.
  destruct rel as [| | | | |l|items]; simpl; try (split; [done|by intros [? ?]]).
  exists items. by repeat split.
Qed.

Lemma upsert_relations_acc (sf : string) (rels : list json)
    (acc runs : list relation_merge) :
  for_each (fun runs rel => r ← relation_run sf rel; Ok (runs ++ [r])) rels acc = Ok runs →
  ∃ new, runs = acc ++ new ∧ Forall2 (fun rel r => relation_run sf rel = Ok r) rels new.
Proof.
  revert acc. induction rels as [|rel rels IH]; intros acc; simpl.
  - intros [= <-]. exists []. by rewrite app_nil_r.
  - destruct (relation_run sf rel) as [r|err] eqn:Hr; [|done].
    simpl. intros H. apply IH in H as (new & -> & Hnew).
    exists (r :: new). rewrite <- app_assoc. split; [done|by constructor].
Qed.

(** X11. [upsert_relations] returns exactly when every relation is an
    object; it then runs one statement per relation, in order, with the
    relation's subject, predicate and object ([None] when missing), its
    description (the empty string when missing) and the chunk's source
    file. When some relation is not an object it raises [AttributeError]. *)
Theorem upsert_relations_outcome (rels : list json) (sf : string) :
  match upsert_relations rels sf with
  | Ok runs =>
      length runs = length rels ∧
      ∀ j rel, rels !! j = Some rel →
        ∃ items r, rel = JDict items ∧ runs !! j = Some r ∧
          rm_subject r = default JNull (dict_lookup "subject" items) ∧
          rm_predicate r = default JNull (dict_lookup "predicate" items) ∧
          rm_object r = default JNull (dict_lookup "object" items) ∧
          rm_description r
          = default (JStr EmptyString) (dict_lookup "description" items) ∧
          rm_source_file r = sf
  | Raise e => e = AttributeError ∧ ¬ Forall is_dict rels
  end.
Proof.
  destruct (upsert_relations rels sf) as [runs|e] eqn:Hrun.
  - apply upsert_relations_acc in Hrun as (new & -> & Hrun). simpl.
    split; [symmetry; by eapply Forall2_length|].
    intros j rel Hj.
    destruct (Forall2_lookup_l _ _ _ _ _ Hrun Hj) as (r & Hr & Hrel).
    pose proof (relation_run_fields sf rel) as Hf. rewrite Hrel in Hf.
    destruct Hf as (items & -> & Hf). by exists items, r.
  - apply for_each_raise in Hrun as (runs & rel & Hin & Hraise).
    pose proof (relation_run_fields sf rel) as Hf.
    destruct (relation_run sf rel) as [r|e'] eqn:Hrel; [done|].
    simpl in Hraise. injection Hraise as <-. destruct Hf as [-> Hnd].
    split; [done|]. intros Hall. rewrite Forall_forall in Hall. by apply Hnd, Hall.
Qed.

End GraphUpserts.

(** ** Batching *)
Section Batching.
Import IngestRun.
Context {A : Type}.

Lemma batched_nil (n : nat) : batched (@nil A) n = [].
Proof. rewrite batched_equation_1. by rewrite take_nil. Qed.

Lemma batched_zero (xs : list A) : batched xs 0 = [].
Proof. rewrite batched_equation_1. by rewrite take_0. Qed.

Lemma batched_step (xs : list A) (n : nat) :
  (0 < n)%nat → xs ≠ [] → batched xs n = take n xs :: batched (drop n xs) n.
Proof.
  intros Hn Hxs. rewrite batched_equation_1.
  destruct (decide (take n xs = [])) as [Hnil|_]; [|done].
  destruct n; [lia|]. by destruct xs.
Qed.

Lemma batched_facts (xs : list A) (n : nat) :
  (0 < n)%nat →
  concat (batched xs n) = xs ∧
  Forall (fun b => (0 < length b <= n)%nat) (batched xs n) ∧
  (∀ k b, batched xs n !! k = Some b → (S k < length (batched xs n))%nat →
     length b = n) ∧
  length (batched xs n) = ((length xs + n - 1) / n)%nat ∧
  batched xs 0 = [].
Proof.
  intros Hn.
  remember (length xs) as m eqn:Hm. revert xs Hm.
  induction (lt_wf m) as [m _ IH]; intros xs ->.
  destruct xs as [|x xs].
  { rewrite batched_nil, batched_zero. simpl.
    repeat split; try done. symmetry. apply Nat.div_small. lia. }
  rewrite batched_step by done.
  set (rest := drop n (x :: xs)).
  assert (length rest < length (x :: xs))%nat as Hdec.
  { unfold rest. rewrite length_drop. simpl. lia. }
  destruct (IH _ Hdec rest eq_refl) as (Hcat & Hsz & Hfull & Hlen & _).
  split; [|split; [|split; [|split]]].
  - simpl concat. rewrite Hcat. apply take_drop.
  - constructor; [|done]. rewrite length_take. simpl. lia.
  - intros [|k] b Hb Hk; simpl in *.
    + injection Hb as <-. rewrite length_take.
      destruct (decide (n <= length (x :: xs))%nat) as [Hle|Hgt]; [simpl in *; lia|].
      assert (rest = []) as Hrest.
      { unfold rest. apply drop_ge. simpl in *. lia. }
      rewrite Hrest, batched_nil in Hk. simpl in Hk. lia.
    + apply (Hfull k b Hb). lia.
  - simpl length at 1. rewrite Hlen. unfold rest. rewrite length_drop.
    destruct (decide (n <= length (x :: xs))%nat) as [Hle|Hgt].
    + replace (length (x :: xs) + n - 1)%nat
        with ((length (x :: xs) - n + n - 1) + 1 * n)%nat by lia.
      rewrite Nat.div_add by lia. lia.
    + replace (length (x :: xs) - n)%nat with O by lia.
      rewrite (Nat.div_small (0 + n - 1)) by lia.
      simpl Nat.add.
      apply (Nat.div_unique _ _ 1 (length (x :: xs) - 1)); simpl in *; lia.
  - apply batched_zero.
Qed.

(** X12. For a batch size of at least one, the batches put end to end are
    the input, no batch is empty or longer than the batch size, every batch
    but the last is full, and there are [ceil(len / n)] batches; for a
    batch size of zero there is no batch at all. *)
Theorem batched_partition (xs : list A) (n : nat) :
  (0 < n)%nat →
  concat (batched xs n) = xs ∧
  Forall (fun b => (0 < length b <= n)%nat) (batched xs n) ∧
  (∀ k b, batched xs n !! k = Some b → (S k < length (batched xs n))%nat →
     length b = n) ∧
  length (batched xs n) = ((length xs + n - 1) / n)%nat ∧
  batched xs 0 = [].
Proof. apply batched_facts. Qed.

End Batching.

Section BatchingSample.
Import IngestRun.

Lemma batched_partition_witness :
  (0 < 2)%nat ∧
  concat (batched [1; 2; 3; 4; 5] 2) = [1; 2; 3; 4; 5] ∧
  Forall (fun b => (0 < length b <= 2)%nat) (batched [1; 2; 3; 4; 5] 2) ∧
  (∀ k b, batched [1; 2; 3; 4; 5] 2 !! k = Some b →
     (S k < length (batched [1; 2; 3; 4; 5] 2))%nat → length b = 2%nat) ∧
  length (batched [1; 2; 3; 4; 5] 2) = ((length [1; 2; 3; 4; 5] + 2 - 1) / 2)%nat ∧
  batched [1; 2; 3; 4; 5] 0 = [].
Proof.
  split; [lia|]. apply (batched_partition [1; 2; 3; 4; 5] 2). lia.
Defined.

End BatchingSample.

(** ** The two ingestion modes *)
Section IngestModes.
Import PyStr Json Chunker ExtractGraph CreateGraph CreateIndex IngestPipeline
  PipelineSpec IngestRun ExtraSpec.

Context {vector : Type}.
Variable embed : string → vector.
Variable json_loads : string → option json.
Variable json_dumps : json → string.
Variable complete : nat → nat → string → res string.
Variable completion : nat → list nat.
Variable store_fails : nat → bool.

#[local] Abbreviation index_all := (index_all vector embed store_fails).
#[local] Abbreviation graph_batches :=
  (graph_batches vector embed json_loads json_dumps complete completion store_fails).
#[local] Abbreviation ingest_chunks :=
  (ingest_chunks vector embed json_loads json_dumps complete completion store_fails).

Lemma index_keys_app (l1 l2 : list (store_call vector)) :
  index_keys (l1 ++ l2) = index_keys l1 ++ index_keys l2.
Proof. unfold index_keys. apply omap_app. Qed.

Lemma posts_ret {A : Type} (a : A) : posts [] (sm_ret vector a).
Proof.
  intros log r log' [= <- <-]. exists [], O. by rewrite app_nil_r.
Qed.

Lemma posts_lift {A : Type} (r : res A) : posts [] (sm_lift vector r).
Proof.
  intros log r' log' [= <- <-]. exists [], O. by rewrite app_nil_r.
Qed.

Lemma posts_bind {A B : Type} (keys1 keys2 : list string)
    (m : store_m vector A) (f : A → store_m vector B) :
  posts keys1 m → (∀ a, posts keys2 (f a)) → posts (keys1 ++ keys2) (m ≫= f).
Proof.
  intros Hm Hf log r log'. unfold mbind, store_bind, sm_bind.
  destruct (m log) as [[a|e] log1] eqn:Hrun;
    apply Hm in Hrun as (c1 & k1 & -> & Hk1 & Hall1).
  - intros H. apply Hf in H as (c2 & k2 & -> & Hk2 & Hall2).
    exists (c1 ++ c2), (length keys1 + k2)%nat.
    rewrite index_keys_app, (Hall1 a eq_refl).
    split; [by rewrite app_assoc|]. split; [by rewrite Hk2, take_app_add|].
    intros b Hb. by rewrite (Hall2 b Hb).
  - intros [= <- <-]. exists c1, (k1 `min` length keys1)%nat.
    split; [done|]. split; [|done].
    rewrite Hk1, take_app_le by lia.
    destruct (decide (k1 <= length keys1)%nat).
    + by rewrite Nat.min_l by lia.
    + rewrite Nat.min_r by lia. rewrite !take_ge by lia. done.
Qed.

Lemma posts_execute_write (c : graph_call) :
  posts [] (execute_write vector json_dumps store_fails c).
Proof.
  intros log r log' H. apply execute_write_log in H as ->.
  by exists [ExecuteWrite c], O.
Qed.

Lemma posts_index_chunk (chunk : Chunk) (ids : list json) :
  posts [chunk_id chunk] (index_chunk vector embed store_fails chunk ids).
Proof.
  intros log r log' H. apply index_chunk_log in H as ->.
  eexists _, 1%nat. by repeat split.
Qed.

Lemma posts_when_nonempty {A : Type} (xs : list A) (m : store_m vector unit) :
  posts [] m → posts [] (when_nonempty vector xs m).
Proof. destruct xs; [|done]. intros _. apply posts_ret. Qed.

Lemma posts_write_chunk (chunk : Chunk) (slot : option KG) :
  posts [chunk_id chunk] (write_chunk vector embed json_dumps store_fails chunk slot).
Proof.
  unfold write_chunk.
  apply (posts_bind [] [_]); [apply posts_when_nonempty, posts_execute_write|].
  intros _.
  apply (posts_bind [] [_]); [apply posts_when_nonempty, posts_execute_write|].
  intros _.
  apply (posts_bind [] [_]); [apply posts_lift|].
  intros ids. apply posts_index_chunk.
Qed.

Lemma posts_write_pairs (pairs : list (Chunk * option KG)) :
  posts (chunk_id <$> pairs.*1)
        (write_pairs vector embed json_dumps store_fails pairs).
Proof.
  induction pairs as [|[chunk slot] pairs IH]; simpl; [apply posts_ret|].
  apply (posts_bind [_]); [apply posts_write_chunk|done].
Qed.

Lemma posts_process_batch (k : nat) (chunk_batch : list Chunk) :
  posts (chunk_id <$> chunk_batch)
        (process_batch vector embed json_loads json_dumps (complete k) store_fails
                       chunk_batch (completion k)).
Proof.
  unfold process_batch, write_batch.
  pose proof (posts_write_pairs
                (zip chunk_batch (dispatch json_loads (complete k) chunk_batch (completion k))))
    as H.
  rewrite fst_zip in H; [done|].
  unfold dispatch. rewrite collect_length, length_replicate. done.
Qed.

Lemma posts_index_all (chunks : list Chunk) :
  posts (chunk_id <$> chunks) (index_all chunks).
Proof.
  induction chunks as [|chunk chunks IH]; simpl; [apply posts_ret|].
  apply (posts_bind [_]); [apply posts_index_chunk|done].
Qed.

Lemma posts_graph_batches (batches : list (list Chunk)) (k : nat) :
  posts (chunk_id <$> concat batches) (graph_batches batches k).
Proof.
  revert k. induction batches as [|b batches IH]; intros k; simpl; [apply posts_ret|].
  rewrite fmap_app. apply posts_bind; [|intros _; apply IH].
  destruct b; [apply posts_ret|apply posts_process_batch].
Qed.

(** X13. In either mode and for every batch size, the index records
    written by a run are keyed, in order, by the chunk ids of a prefix of
    the chunk list, and by all of them when the run returns; earlier log
    entries are left as they are. *)
Theorem ingest_posts_in_chunk_order (chunks : list Chunk) (enable_graph : bool)
    (batch_size : Z) (log log' : list (store_call vector)) (r : res unit) :
  ingest_chunks chunks enable_graph batch_size log = (r, log') →
  ∃ calls k,
    log' = log ++ calls ∧
    index_keys calls = map chunk_id (take k chunks) ∧
    (r = Ok () → index_keys calls = map chunk_id chunks).
Proof.
  intros Hrun.
  assert (posts (chunk_id <$> chunks) (ingest_chunks chunks enable_graph batch_size)) as Hposts.
  { unfold IngestRun.ingest_chunks. destruct chunks as [|c0 chunks0]; [apply posts_ret|].
    destruct enable_graph; [|apply posts_index_all].
    pose proof (posts_graph_batches
                  (batched (c0 :: chunks0) (effective_batch_size batch_size)) 0) as H.
    destruct (batched_facts (c0 :: chunks0) (effective_batch_size batch_size))
      as [Hcat _]; [unfold effective_batch_size; lia|].
    by rewrite Hcat in H. }
  destruct (Hposts _ _ _ Hrun) as (calls & k & -> & Hk & Hall).
  exists calls, k. split; [done|]. split; [by rewrite Hk, fmap_take|].
  intros ->. by apply (Hall ()).
Qed.

(** X14. Plain mode writes nothing but index records without entity ids,
    one per chunk in order, and stops at the first one the store rejects:
    the log grows by the records of the first [k] chunks; [k] is the number
    of chunks when the run returns, and when it raises, the exception is
    the store's and the rejected call is the record of chunk [k]. *)
Theorem plain_mode_log (chunks : list Chunk) (log log' : list (store_call vector))
    (r : res unit) :
  index_all chunks log = (r, log') →
  ∃ k, (k <= length chunks)%nat ∧
       log' = log ++ map (plain_post embed) (take k chunks) ∧
       (r = Ok () → k = length chunks) ∧
       (∀ e, r = Raise e →
          e = StoreError ∧ (0 < k)%nat ∧ store_fails (length log + k - 1) = true).
Proof.
  revert log. induction chunks as [|chunk chunks IH]; intros log; simpl.
  - intros [= <- <-]. exists O. simpl. rewrite app_nil_r. by repeat split.
  - unfold mbind, store_bind, sm_bind, index_chunk. simpl.
    destruct (store_fails (length log)) eqn:Hfail.
    + intros [= <- <-]. exists 1%nat. simpl.
      split; [lia|]. split; [by destruct chunks|]. split; [done|].
      intros e [= <-]. split; [done|]. split; [lia|].
      by replace (length log + 1 - 1)%nat with (length log) by lia.
    + intros Hrun. apply IH in Hrun as (k & Hk & -> & Hok & Hraise).
      exists (S k). simpl. split; [lia|]. split; [by rewrite <- app_assoc|].
      split; [intros Hr; by rewrite (Hok Hr)|].
      intros e He. destruct (Hraise e He) as (-> & Hpos & Hf).
      split; [done|]. split; [lia|].
      rewrite length_app in Hf. simpl in Hf.
      by replace (length log + S k - 1)%nat with (length log + 1 + k - 1)%nat by lia.
Qed.

(** *** Graph mode when no extraction yields anything *)

Lemma dispatch_all_empty (k : nat) (chunk_batch : list Chunk) :
  (∀ idx chunk, degraded (future_result json_loads (complete k) idx chunk) = empty_kg) →
  Forall (fun slot => default empty_kg slot = empty_kg)
         (dispatch json_loads (complete k) chunk_batch (completion k)).
Proof.
  intros Hempty. unfold dispatch.
  assert (Forall (fun slot : option KG => default empty_kg slot = empty_kg)
                 (replicate (length chunk_batch) None)) as Hinit.
  { apply Forall_replicate. done. }
  revert Hinit. generalize (replicate (length chunk_batch) (@None KG)).
  induction (completion k) as [|idx order IH]; intros kg_list Hall; [done|].
  simpl. apply IH. unfold collect_one.
  destruct (chunk_batch !! idx) as [chunk|]; [|done].
  specialize (Hempty idx chunk).
  destruct (future_result json_loads (complete k) idx chunk) as [kg|e];
    simpl in Hempty; by apply Forall_insert.
Qed.

Lemma write_chunk_empty (chunk : Chunk) (slot : option KG)
    (log : list (store_call vector)) :
  default empty_kg slot = empty_kg →
  write_chunk vector embed json_dumps store_fails chunk slot log
  = index_chunk vector embed store_fails chunk [] log.
Proof. intros Hslot. unfold write_chunk. by rewrite Hslot. Qed.

Lemma write_pairs_empty (pairs : list (Chunk * option KG))
    (log : list (store_call vector)) :
  Forall (fun p => default empty_kg p.2 = empty_kg) pairs →
  write_pairs vector embed json_dumps store_fails pairs log = index_all pairs.*1 log.
Proof.
  intros Hall. revert log. induction Hall as [|[chunk slot] pairs Hp Hall IH]; intros log.
  - done.
  - simpl. unfold mbind, store_bind, sm_bind.
    rewrite write_chunk_empty by done.
    destruct (index_chunk vector embed store_fails chunk [] log) as [[[]|e] log1]; [|done].
    apply IH.
Qed.

Lemma index_all_app (xs ys : list Chunk) (log : list (store_call vector)) :
  index_all (xs ++ ys) log
  = match index_all xs log with
    | (Ok _, log1) => index_all ys log1
    | (Raise e, log1) => (Raise e, log1)
    end.
Proof.
  revert log. induction xs as [|x xs IH]; intros log; simpl; [done|].
  unfold mbind, store_bind, sm_bind.
  destruct (index_chunk vector embed store_fails x [] log) as [[[]|e] log1]; [|done].
  apply IH.
Qed.

Lemma graph_batches_empty (batches : list (list Chunk)) (k : nat)
    (log : list (store_call vector)) :
  (∀ k idx chunk, degraded (future_result json_loads (complete k) idx chunk) = empty_kg) →
  graph_batches batches k log = index_all (concat batches) log.
Proof.
  intros Hempty. revert k log.
  induction batches as [|b batches IH]; intros k log; simpl; [done|].
  rewrite index_all_app. unfold mbind, store_bind, sm_bind.
  assert (match b with
          | [] => sm_ret vector ()
          | _ => process_batch vector embed json_loads json_dumps (complete k)
                               store_fails b (completion k)
          end log = index_all b log) as ->.
  { destruct b as [|c b']; [done|].
    unfold process_batch, write_batch. rewrite write_pairs_empty.
    - rewrite fst_zip; [done|].
      unfold dispatch. by rewrite collect_length, length_replicate.
    - apply Forall_forall. intros [chunk slot] Hin. simpl.
      apply elem_of_zip_r in Hin.
      pose proof (dispatch_all_empty k (c :: b') (Hempty k)) as Hall.
      rewrite Forall_forall in Hall. by apply Hall. }
  destruct (index_all b log) as [[[]|e] log1]; [|done].
  apply IH.
Qed.

(** X15. When every extraction call of a run either raises or yields no
    entity and no relation, graph mode makes exactly the store calls of
    plain mode, with the same outcome, whatever the batch size and the
    order of completion. *)
Theorem graph_mode_without_extractions (chunks : list Chunk) (batch_size : Z)
    (log : list (store_call vector)) :
  (∀ k idx chunk, degraded (future_result json_loads (complete k) idx chunk) = empty_kg) →
  ingest_chunks chunks true batch_size log = ingest_chunks chunks false batch_size log.
Proof.
  intros Hempty. unfold IngestRun.ingest_chunks.
  destruct chunks as [|c0 chunks0]; [done|].
  rewrite graph_batches_empty by done.
  destruct (batched_facts (c0 :: chunks0) (effective_batch_size batch_size))
    as [Hcat _]; [unfold effective_batch_size; lia|].
  by rewrite Hcat.
Qed.

End IngestModes.

(** ** One batch: the order of completion does not reach the stores *)
Section CompletionOrder.
Import PyStr Json Chunker ExtractGraph CreateGraph CreateIndex IngestPipeline
  PipelineSpec ExtraSpec.

Context {vector : Type}.
Variable embed : string → vector.
Variable json_loads : string → option json.
Variable json_dumps : json → string.
Variable complete : nat → string → res string.
Variable store_fails : nat → bool.

(** The result array, whatever the order of completion. *)
Lemma dispatch_value (chunk_batch : list Chunk) (completion : list nat) :
  completion ≡ₚ seq 0 (length chunk_batch) →
  dispatch json_loads complete chunk_batch completion
  = imap (fun i chunk => Some (degraded (future_result json_loads complete i chunk)))
         chunk_batch.
Proof.
  intros Hperm. apply list_eq. intros i. rewrite list_lookup_imap.
  destruct (chunk_batch !! i) as [chunk|] eqn:Hi; simpl.
  - unfold dispatch.
    rewrite (collect_slots _ _ _ _ _ i chunk) by (by rewrite ?length_replicate).
    destruct (decide (i ∈ completion)) as [_|Hout]; [done|].
    destruct Hout. rewrite Hperm. apply elem_of_seq.
    apply lookup_lt_Some in Hi. lia.
  - apply lookup_ge_None. apply lookup_ge_None in Hi.
    unfold dispatch. by rewrite collect_length, length_replicate.
Qed.

(** X17. The store calls of a batch and their outcome do not depend on the
    order in which the extraction calls complete. *)
Theorem process_batch_order_independent (chunk_batch : list Chunk)
    (completion1 completion2 : list nat) (log : list (store_call vector)) :
  completion1 ≡ₚ seq 0 (length chunk_batch) →
  completion2 ≡ₚ seq 0 (length chunk_batch) →
  process_batch vector embed json_loads json_dumps complete store_fails
                chunk_batch completion1 log
  = process_batch vector embed json_loads json_dumps complete store_fails
                  chunk_batch completion2 log.
Proof.
  intros H1 H2. unfold process_batch.
  by rewrite (dispatch_value _ _ H1), (dispatch_value _ _ H2).
Qed.

End CompletionOrder.

Section CompletionOrderSample.
Import PyStr Json Chunker ExtractGraph CreateGraph CreateIndex IngestPipeline
  PipelineSpec ExtraSpec.

Lemma process_batch_order_independent_witness :
  [2; 0; 1]%nat ≡ₚ seq 0 (length [chunk_a; chunk_b; chunk_c]) ∧
  [0; 1; 2]%nat ≡ₚ seq 0 (length [chunk_a; chunk_b; chunk_c]) ∧
  process_batch (list Z) sample_embed sample_json_loads sample_json_dumps sample_complete
                store_never_fails [chunk_a; chunk_b; chunk_c] [2; 0; 1]%nat []
  = process_batch (list Z) sample_embed sample_json_loads sample_json_dumps sample_complete
                  store_never_fails [chunk_a; chunk_b; chunk_c] [0; 1; 2]%nat [].
Proof.
  assert ([2; 0; 1]%nat ≡ₚ seq 0 (length [chunk_a; chunk_b; chunk_c])) as H1.
  { apply (bool_decide_unpack _). vm_compute. exact I. }
  assert ([0; 1; 2]%nat ≡ₚ seq 0 (length [chunk_a; chunk_b; chunk_c])) as H2.
  { apply (bool_decide_unpack _). vm_compute. exact I. }
  split; [exact H1|]. split; [exact H2|].
  exact (process_batch_order_independent sample_embed sample_json_loads sample_json_dumps
           sample_complete store_never_fails _ _ _ [] H1 H2).
Defined.

End CompletionOrderSample.

(** ** The ingestion modes on sample runs *)
Section IngestSamples.
Import PyStr Json Chunker ExtractGraph CreateGraph CreateIndex IngestPipeline
  PipelineSpec IngestRun ExtraSpec.

Lemma ingest_posts_in_chunk_order_witness :
  ∃ log' calls k,
    ingest_chunks (list Z) sample_embed sample_json_loads sample_json_dumps
                  complete_sample completion_reversed store_never_fails
                  [chunk_a; chunk_b; chunk_c] true 2 [] = (Ok (), log') ∧
    log' = [] ++ calls ∧
    index_keys calls = map chunk_id (take k [chunk_a; chunk_b; chunk_c]) ∧
    (Ok () = Ok () → index_keys calls = map chunk_id [chunk_a; chunk_b; chunk_c]).
Proof.
  destruct (ingest_chunks (list Z) sample_embed sample_json_loads sample_json_dumps
              complete_sample completion_reversed store_never_fails
              [chunk_a; chunk_b; chunk_c] true 2 []) as [r log'] eqn:Hrun.
  assert (r = Ok ()) as -> by (vm_compute in Hrun; congruence).
  destruct (ingest_posts_in_chunk_order sample_embed sample_json_loads sample_json_dumps
              complete_sample completion_reversed store_never_fails
              [chunk_a; chunk_b; chunk_c] true 2 [] log' (Ok ()) Hrun)
    as (calls & k & Hlog & Hk & Hall).
  by exists log', calls, k.
Defined.

Lemma plain_mode_log_witness :
  ∃ log' k,
    index_all (list Z) sample_embed store_fails_first [chunk_a; chunk_b] []
    = (Raise StoreError, log') ∧
    (k <= length [chunk_a; chunk_b])%nat ∧
    log' = [] ++ map (plain_post sample_embed) (take k [chunk_a; chunk_b]) ∧
    (0 < k)%nat ∧ store_fails_first (0 + k - 1) = true.
Proof.
  destruct (index_all (list Z) sample_embed store_fails_first [chunk_a; chunk_b] [])
    as [r log'] eqn:Hrun.
  assert (r = Raise StoreError) as -> by (vm_compute in Hrun; congruence).
  destruct (plain_mode_log sample_embed store_fails_first [chunk_a; chunk_b] [] log'
              (Raise StoreError) Hrun) as (k & Hk & Hlog & _ & Hraise).
  destruct (Hraise StoreError eq_refl) as (_ & Hpos & Hfail).
  by exists log', k.
Defined.

Lemma graph_mode_without_extractions_witness :
  (∀ k idx chunk,
     degraded (future_result sample_json_loads (complete_down k) idx chunk) = empty_kg) ∧
  ingest_chunks (list Z) sample_embed sample_json_loads sample_json_dumps
                complete_down completion_reversed store_never_fails
                [chunk_a; chunk_b; chunk_c] true 2 []
  = ingest_chunks (list Z) sample_embed sample_json_loads sample_json_dumps
                  complete_down completion_reversed store_never_fails
                  [chunk_a; chunk_b; chunk_c] false 2 [].
Proof.
  assert (∀ k idx chunk,
            degraded (future_result sample_json_loads (complete_down k) idx chunk)
            = empty_kg) as H by done.
  split; [exact H|].
  exact (graph_mode_without_extractions sample_embed sample_json_loads sample_json_dumps
           complete_down completion_reversed store_never_fails
           [chunk_a; chunk_b; chunk_c] 2 [] H).
Defined.

End IngestSamples.

(** ** The directory walk *)
Section DirectoryWalk.
Import PyStr Chunker ChunkerSpec ChunkerDir ExtraSpec.





Example chunk_dir_sample_sources :
  (map source_file <$> match chunk_dir sample_chunker sample_tree with
                       | Ok cs => Some cs
                       | Raise _ => None
                       end)
  = Some ["a.md"; "a.md"; "b/guide.md"; "b/guide.md"; "b/guide.md"]%string.
Proof. vm_compute. reflexivity. Qed.

End DirectoryWalk.
